(** * hydrazine: math.h -- bit manipulation and extended precision arithmetic

    A shallow embedding of the functions of hydrazine's [math.h] over [Z].
    A value of a C++ integer type is the mathematical integer it denotes
    (negative for a negative signed value); every conversion back to a
    fixed-width type is written out as a wrap-around modulo [2 ^ width]. *)

From Stdlib Require Import ZArith Bool List Lia.
From Stdlib Require Import Ascii.
From Stdlib Require String DecimalString.
Import ListNotations.

Local Open Scope Z_scope.

(** ** Fixed-width integer types *)

(** The template parameter [type] of math.h: a width in bits and a
    signedness. *)
Record itype : Type := IType { width : Z; is_signed : bool }.

Definition int8   : itype := IType 8 true.
Definition uint8  : itype := IType 8 false.
Definition int16  : itype := IType 16 true.
Definition uint16 : itype := IType 16 false.
Definition int32  : itype := IType 32 true.
Definition uint32 : itype := IType 32 false.
Definition int64  : itype := IType 64 true.
Definition uint64 : itype := IType 64 false.

Definition modulus (ty : itype) : Z := 2 ^ width ty.
Definition half_modulus (ty : itype) : Z := 2 ^ (width ty - 1).

Definition min_val (ty : itype) : Z :=
  if is_signed ty then - half_modulus ty else 0.
Definition max_val (ty : itype) : Z :=
  if is_signed ty then half_modulus ty - 1 else modulus ty - 1.

Definition in_range (ty : itype) (v : Z) : Prop :=
  min_val ty <= v <= max_val ty.

(** Conversion of an integer to [ty]: the unique value of [ty] congruent to
    it modulo [2 ^ width].  Signed overflow is modelled the same way
    (two's-complement wrap-around). *)
Definition wrap (ty : itype) (z : Z) : Z :=
  if is_signed ty
  then (z + half_modulus ty) mod modulus ty - half_modulus ty
  else z mod modulus ty.

(** Modelled from the spec: [SignedToUnsigned< type >::type], which math.h
    takes from MetaProgramming.h, is the unsigned counterpart of identical
    width. *)
Definition SignedToUnsigned (ty : itype) : itype := IType (width ty) false.

(** Modelled from the spec: [isNegative], which math.h takes from
    MetaProgramming.h, is the sign test; a value of an unsigned type is
    never negative. *)
Definition isNegative (ty : itype) (v : Z) : bool := is_signed ty && (v <? 0).

(** The bit pattern of a value, read as an unsigned number: [(utype) v]. *)
Definition pattern (ty : itype) (v : Z) : Z := wrap (SignedToUnsigned ty) v.

(** The double-width type of the same signedness, and the value denoted by a
    (hi, lo) pair: the concatenation of the two bit patterns read in that
    type. *)
Definition double (ty : itype) : itype := IType (2 * width ty) (is_signed ty).

Definition hilo (ty : itype) (hi lo : Z) : Z :=
  wrap (double ty) (pattern ty hi * modulus ty + pattern ty lo).

(** ** Operators, each followed by the conversion to the operand type *)

Definition add (ty : itype) (a b : Z) : Z := wrap ty (a + b).
Definition sub (ty : itype) (a b : Z) : Z := wrap ty (a - b).
Definition mul (ty : itype) (a b : Z) : Z := wrap ty (a * b).
Definition neg (ty : itype) (a : Z) : Z := wrap ty (- a).
Definition band (ty : itype) (a b : Z) : Z := wrap ty (Z.land a b).
Definition bor (ty : itype) (a b : Z) : Z := wrap ty (Z.lor a b).
Definition bnot (ty : itype) (a : Z) : Z := wrap ty (Z.lnot a).
Definition shl (ty : itype) (a n : Z) : Z := wrap ty (Z.shiftl a n).
(** [>>] on a signed operand is the arithmetic shift. *)
Definition shr (ty : itype) (a n : Z) : Z := wrap ty (Z.shiftr a n).

(** Integer promotion, and the common type of the usual arithmetic
    conversions of a binary operator whose operands have types [a] and [b]
    (all the types here are [int]-sized or wider once promoted). *)
Definition promote (ty : itype) : itype :=
  if width ty <? 32 then int32 else ty.

Definition common (a b : itype) : itype :=
  let a := promote a in
  let b := promote b in
  if width a =? width b then IType (width a) (is_signed a && is_signed b)
  else if width a <? width b then b else a.

(** ** Power of two checks *)

(** math.h, isPowerOfTwo; [ty] is [uint32] or [int32] for the two
    overloads. *)
Definition isPowerOfTwo (ty : itype) (value : Z) : bool :=
  band ty value (add ty (bnot ty value) 1) =? value.

(** math.h, modPowerOfTwo; [ty] is [uint32] or [int32] for the two
    overloads.  [None] is the failure of [assert( value != 0 )]. *)
Definition modPowerOfTwo (ty : itype) (value1 value : Z) : option Z :=
  if value =? 0 then None
  else Some (band ty value1 (sub ty value 1)).

(** math.h, powerOfTwo (on [unsigned int]) *)
Definition powerOfTwo (value : Z) : Z :=
  let value := sub uint32 value 1 in
  let value := bor uint32 value (shr uint32 value 1) in
  let value := bor uint32 value (shr uint32 value 2) in
  let value := bor uint32 value (shr uint32 value 4) in
  let value := bor uint32 value (shr uint32 value 8) in
  let value := bor uint32 value (shr uint32 value 16) in
  let value := add uint32 value 1 in
  value.

(** ** Bit manipulation *)

(** The loop of [countLeadingZeros].  [count] goes up by one in every
    iteration, so the guard [count < max] is the test that [remaining], the
    distance from [count] to [max], is not zero. *)
Fixpoint countLeadingZeros_loop (ty : itype) (mask : Z) (remaining : nat)
    (value count : Z) : Z :=
  match remaining with
  | O => count
  | S remaining' =>
      if Z.land value mask =? 0
      then countLeadingZeros_loop ty mask remaining'
             (shl ty value 1) (add uint32 count 1)
      else count
  end.

(** math.h, countLeadingZeros; [8 * sizeof( type )] is [width ty]. *)
Definition countLeadingZeros (ty : itype) (value : Z) : Z :=
  let count := 0 in
  let max := width ty in
  let mask := shl ty 1 (max - 1) in
  countLeadingZeros_loop ty mask (Z.to_nat max) value count.

(** The loop of [popc], cut after [fuel] iterations: [None] when the loop is
    still running then. *)
Fixpoint popc_loop (ty : itype) (fuel : nat) (value count : Z) : option Z :=
  if value =? 0 then Some count
  else
    match fuel with
    | O => None
    | S fuel' =>
        let count :=
          if negb (Z.land value 1 =? 0) then add uint32 count 1 else count in
        let value := shr ty value 1 in
        popc_loop ty fuel' value count
    end.

(** math.h, popc *)
Definition popc (ty : itype) (fuel : nat) (value : Z) : option Z :=
  let count := 0 in
  popc_loop ty fuel value count.

Section Bfind.

(** [bfind] shifts the [int] constant 1 by [i], and [i] goes up to 63 in
    the 64-bit instances; the language leaves a shift of an [int] by 32
    or more undefined.  [shl_oob i] stands for whatever the platform
    yields then; it is converted to [int]. *)
Variable shl_oob : Z -> Z.

(** [1 << i], of type [int]. *)
Definition int_one_shl (i : Z) : Z :=
  if i <? 32 then shl int32 1 i else wrap int32 (shl_oob i).

(** [value & ( 1 << i )], the operands converted to their common type. *)
Definition bfind_test (ty : itype) (value i : Z) : bool :=
  let cty := common ty int32 in
  negb (Z.land (wrap cty value) (wrap cty (int_one_shl i)) =? 0).

(** The loop of [bfind]: [n] is [i + 1], the iterations left. *)
Fixpoint bfind_loop (ty : itype) (value : Z) (n : nat) (d : Z) : Z :=
  match n with
  | O => d
  | S i =>
      if bfind_test ty value (Z.of_nat i)
      then wrap uint32 (Z.of_nat i)
      else bfind_loop ty value i d
  end.

(** math.h, bfind *)
Definition bfind (ty : itype) (value : Z) (shiftAmount : bool) : Z :=
  let d := wrap uint32 (-1) in
  let msb := width ty - 1 in
  let d := bfind_loop ty value (Z.to_nat (msb + 1)) d in
  if shiftAmount
  then if negb (d =? wrap uint32 (-1)) then wrap uint32 (msb - d) else d
  else d.

End Bfind.

(** The shift as the x86 and ARM shift instructions on 32-bit registers do
    it: the count is taken modulo 32. *)
Definition shl_count_mod32 (i : Z) : Z := Z.shiftl 1 (i mod 32).

(** math.h, bitExtract *)
Definition bitExtract (ty : itype) (value position : Z) : Z :=
  let value := shr ty value position in
  let value := band ty value 1 in
  let value := shl ty value position in
  value.

(** math.h, bitInsert *)
Definition bitInsert (ty : itype) (value bit position : Z) : Z :=
  let bit := band ty bit 1 in
  let bit := shl ty bit position in
  let mask := bnot ty bit in
  let value := band ty value mask in
  let value := bor ty value bit in
  value.

(** The loop of [brev]: [i] goes up by one in each of the [n] iterations. *)
Fixpoint brev_loop (ty : itype) (value msb : Z) (n : nat) (i result : Z) : Z :=
  match n with
  | O => result
  | S n' =>
      brev_loop ty value msb n' (i + 1)
        (bitInsert ty result (bitExtract ty value (msb - i)) i)
  end.

(** math.h, brev: [for( i = 0; i <= msb; ++i )] makes [msb + 1] iterations. *)
Definition brev (ty : itype) (value : Z) : Z :=
  let msb := width ty - 1 in
  let result := 0 in
  brev_loop ty value msb (Z.to_nat (msb + 1)) 0 result.

(** ** Extended precision *)

(** math.h, multiplyHiLo; the two references [hi] and [lo] are returned as a
    pair.  [sizeof( type ) * 4] is half the width.  The arithmetic on
    [utype] wraps modulo [2 ^ width].  (In the 8- and 16-bit instances the
    operands are promoted to [int] and the result is converted when it is
    stored; no intermediate result leaves the range of [int] there, so
    wrapping after every operator yields the same values.) *)
Definition multiplyHiLo (ty : itype) (r0 r1 : Z) : Z * Z :=
  let r0Signed := isNegative ty r0 in
  let r1Signed := isNegative ty r1 in
  let r0 := if r0Signed then neg ty r0 else r0 in
  let r1 := if r1Signed then neg ty r1 else r1 in
  let utype := SignedToUnsigned ty in
  let negative := (r0Signed && negb r1Signed) || (r1Signed && negb r0Signed) in
  let bits := width ty / 2 in
  let mask := wrap utype (sub ty (shl ty 1 bits) 1) in
  let a := shr utype (wrap utype r0) bits in
  let b := band utype (wrap utype r0) mask in
  let c := shr utype (wrap utype r1) bits in
  let d := band utype (wrap utype r1) mask in
  let da := mul utype d a in
  let db := mul utype d b in
  let ca := mul utype c a in
  let cb := mul utype c b in
  let totalBits := wrap utype (width ty - 1) in
  let upperMask := wrap utype (sub ty (shl ty 1 totalBits) 1) in
  let daUpper := shr utype da totalBits in
  let cbUpper := shr utype cb totalBits in
  let xCarryIn :=
    shr utype (add utype (band utype da upperMask) (band utype cb upperMask))
      totalBits in
  let xCarryOut := shr utype (add utype (add utype daUpper cbUpper) xCarryIn) 1 in
  let x := add utype da cb in
  let xUpper := shr utype x totalBits in
  let yCarryIn :=
    shr utype (add utype (band utype x upperMask) (shr utype db bits))
      totalBits in
  let yCarryOut := shr utype (add utype yCarryIn xUpper) 1 in
  let y := add utype (shr utype db bits) x in
  let lo :=
    wrap ty (bor utype (band utype db mask) (shl utype (band utype y mask) bits)) in
  let hi :=
    wrap ty (add utype (add utype (shr utype y bits) ca)
               (shl utype (add utype yCarryOut xCarryOut) bits)) in
  let loUpperBit := shr utype (bnot utype (wrap utype lo)) totalBits in
  let signCarryIn :=
    shr utype (add utype (band utype (bnot utype (wrap utype lo)) upperMask) 1)
      totalBits in
  let signCarryOut := shr utype (add utype loUpperBit signCarryIn) 1 in
  let lo' := if negative then neg ty lo else lo in
  let hi' :=
    if negative
    then wrap ty (add utype (bnot utype (wrap utype hi)) signCarryOut)
    else hi in
  (hi', lo').

(** math.h, addHiLo; the two references [hi] and [lo] are returned as a
    pair. *)
Definition addHiLo (ty : itype) (hi lo r0 : Z) : Z * Z :=
  let utype := SignedToUnsigned ty in
  let uHi := wrap utype hi in
  let uLo := wrap utype lo in
  let uR0 := wrap utype r0 in
  let loResult := add utype uR0 uLo in
  let carry := if (loResult <? uR0) || (loResult <? uLo) then 1 else 0 in
  let hiResult := add utype uHi carry in
  (wrap ty hiResult, wrap ty loResult).

(** ** Notions used to state the properties *)

(** [x] fits in bits [0 .. k] and its [m] topmost of them are set. *)
Definition filled (k m x : Z) : Prop :=
  0 <= x < 2 ^ (k + 1) /\
  forall i, 0 <= i <= k -> k - m < i -> Z.testbit x i = true.

(** The number of set bits among bits [0 .. n - 1] of [v], and the Hamming
    weight of a value of a type: that number over the width of the type. *)
Definition bits_set (n : nat) (v : Z) : Z :=
  Z.of_nat (length (filter (fun i => Z.testbit v (Z.of_nat i)) (seq 0 n))).

Definition hamming_weight (ty : itype) (v : Z) : Z :=
  bits_set (Z.to_nat (width ty)) v.

(** ** Proof automation *)

(** Closes a range or width side condition at a concrete type. *)
Ltac range_solve :=
  unfold in_range, min_val, max_val, modulus, half_modulus;
  cbn; lia.

(** Names the [let]-bound variables of an unfolded definition, one at a
    time, outermost first. *)
Ltac pull_let :=
  match goal with
  | |- context C [let x := ?e in @?b x] =>
      let y := fresh x in
      set (y := e);
      let g := context C [b y] in
      change g; cbv beta
  end.

(** Turns a goal on [unsigned int] operators into one on [/] and [mod] and
    closes it by linear arithmetic. *)
Ltac uint32_arith :=
  unfold add, shr, shl, band, wrap; cbn [is_signed uint32];
  change (modulus uint32) with 4294967296;
  rewrite ?Z.land_ones, ?Z.shiftr_div_pow2, ?Z.shiftl_mul_pow2 by lia;
  change (2 ^ 1) with 2; change (2 ^ 16) with 65536;
  change (2 ^ 31) with 2147483648; change (2 ^ 32) with 4294967296;
  Z.div_mod_to_equations; lia.

(** * string.cpp -- C string manipulations *)

(** A [char] is an [ascii]; a [std::string] is the list of its characters. *)
Definition NUL : ascii := zero.
Definition newline : ascii := "010"%char.
Definition space : ascii := " "%char.

(** The loop of [strlcpy].  [src] is the memory that can be read from the
    pointer [src] on; reading past its end is [None].  The result is what
    is stored from [dest] on, in order.  [remaining] is the distance from
    [src] to [end]. *)
Fixpoint strlcpy_loop (remaining : nat) (src : list ascii)
    : option (list ascii) :=
  match remaining with
  | O => Some [NUL]
  | S remaining' =>
      match src with
      | [] => None
      | c :: src' =>
          if (c =? NUL)%char then Some [c]
          else option_map (cons c) (strlcpy_loop remaining' src')
      end
  end.

(** string.cpp, strlcpy; [length - 1] is computed on [unsigned int]. *)
Definition strlcpy (src : list ascii) (length : Z) : option (list ascii) :=
  strlcpy_loop (Z.to_nat (sub uint32 length 1)) src.

(** The test of [format] for white space. *)
Definition is_space (c : ascii) : bool :=
  (c =? " ")%char || (c =? "009")%char || (c =? "010")%char
  || (c =? "013")%char || (c =? "012")%char.

(** The local variables of [format]. *)
Record format_state : Type := FormatState {
  word : list ascii;
  result : list ascii;
  currentIndex : Z
}.

(** One iteration of the loop of [format].  [currentIndex] is an
    [unsigned int]; the sum [currentIndex + word.size()] is computed on
    [size_t], taken to be 64 bits wide. *)
Definition format_step (prefix : list ascii) (width : Z)
    (st : format_state) (fi : ascii) : format_state :=
  if is_space fi then
    let st :=
      if add uint64 (currentIndex st) (Z.of_nat (length (word st))) >? width
      then FormatState (word st) (result st ++ [newline] ++ prefix)
             (wrap uint32 (Z.of_nat (length prefix)))
      else st in
    match word st with
    | [] => st
    | _ :: _ =>
        FormatState [] (result st ++ word st ++ [space])
          (add uint32 (currentIndex st) 1)
    end
  else
    FormatState (word st ++ [fi]) (result st) (add uint32 (currentIndex st) 1).

(** string.cpp, format *)
Definition format (input firstPrefix prefix : list ascii) (width : Z)
    : list ascii :=
  let st := FormatState [] firstPrefix
              (wrap uint32 (Z.of_nat (length firstPrefix))) in
  let st := fold_left (format_step prefix width) input st in
  let result :=
    if add uint64 (currentIndex st) (Z.of_nat (length (word st))) >? width
    then result st ++ [newline]
    else result st in
  result ++ word st ++ [newline].

(** The loop of [binaryToUint]; [None] is a failed assertion.  The
    comparison [*ci == '1'] is a [bool], 0 or 1 once converted. *)
Fixpoint binaryToUint_loop (digits : list ascii) (mask result : Z)
    : option Z :=
  match digits with
  | [] => Some result
  | ci :: digits' =>
      if (ci =? "0")%char || (ci =? "1")%char then
        let result :=
          bor uint64 result
            (band uint64 mask (if (ci =? "1")%char then 1 else 0)) in
        let mask := shl uint64 mask 1 in
        binaryToUint_loop digits' mask result
      else None
  end.

(** string.cpp, binaryToUint *)
Definition binaryToUint (string : list ascii) : option Z :=
  let result := 0 in
  if 2 <? Z.of_nat (length string) then
    match string with
    | c0 :: c1 :: digits =>
        if (c0 =? "0")%char then
          if (c1 =? "b")%char then
            let mask := 1 in
            binaryToUint_loop digits mask result
          else None
        else None
    | _ => None
    end
  else None.

(** string.cpp, toGraphVizParsableLabel *)
Definition toGraphVizParsableLabel (string : list ascii) : list ascii :=
  fold_left
    (fun result fi =>
       if (fi =? "{")%char then result ++ ["["%char]
       else if (fi =? "}")%char then result ++ ["]"%char]
       else result ++ [fi])
    string [].

(** What [operator<<] writes for an [unsigned int]: its decimal digits. *)
Definition decimal (n : Z) : list ascii :=
  String.list_ascii_of_string
    (DecimalString.NilZero.string_of_uint (N.to_uint (Z.to_N n))).

(** One iteration of the loop of [addLineNumbers], on the stream and the
    counter [line]. *)
Definition addLineNumbers_step (st : list ascii * Z) (s : ascii)
    : list ascii * Z :=
  let (result, line) := st in
  if (s =? newline)%char
  then (result ++ [newline] ++ decimal line ++ [space], add uint32 line 1)
  else (result ++ [s], line).

(** string.cpp, addLineNumbers *)
Definition addLineNumbers (string : list ascii) : list ascii :=
  let line := 1 in
  let st := (decimal line ++ [space], add uint32 line 1) in
  fst (fold_left addLineNumbers_step string st).

(** ** Notions used to state the properties of the string functions *)

Definition not_space (c : ascii) : bool := negb (is_space c).

Definition is_binary_digit (c : ascii) : bool :=
  (c =? "0")%char || (c =? "1")%char.


Definition is_brace (c : ascii) : bool :=
  (c =? "{")%char || (c =? "}")%char.

Definition is_newline (c : ascii) : bool := (c =? newline)%char.

(** The number of line breaks of a text. *)
Definition newlines (s : list ascii) : Z :=
  Z.of_nat (length (filter is_newline s)).

(** The character [toGraphVizParsableLabel] writes for a character read. *)
Definition unbrace (c : ascii) : ascii :=
  if (c =? "{")%char then "["%char
  else if (c =? "}")%char then "]"%char
  else c.
(** ** Basic facts on ranges and wrap-around *)

Lemma modulus_pos ty : 0 < width ty -> 0 < modulus ty.
Proof. intros H. unfold modulus. apply Z.pow_pos_nonneg; lia. Qed.

Lemma half_modulus_pos ty : 0 < width ty -> 0 < half_modulus ty.
Proof. intros H. unfold half_modulus. apply Z.pow_pos_nonneg; lia. Qed.

Lemma modulus_double_half ty :
  0 < width ty -> modulus ty = 2 * half_modulus ty.
Proof.
  intros H. unfold modulus, half_modulus.
  rewrite <- Z.pow_succ_r by lia. f_equal. lia.
Qed.

Lemma wrap_in_range ty v : 0 < width ty -> in_range ty v -> wrap ty v = v.
Proof.
  intros Hw. pose proof (modulus_double_half ty Hw) as Hm.
  pose proof (half_modulus_pos ty Hw) as Hh.
  unfold in_range, wrap, min_val, max_val.
  destruct (is_signed ty); intros Hr.
  - rewrite Z.mod_small by lia. lia.
  - apply Z.mod_small. lia.
Qed.

Lemma wrap_range ty z : 0 < width ty -> in_range ty (wrap ty z).
Proof.
  intros Hw. pose proof (modulus_double_half ty Hw) as Hm.
  pose proof (half_modulus_pos ty Hw) as Hh.
  unfold in_range, wrap, min_val, max_val.
  destruct (is_signed ty).
  - pose proof (Z.mod_pos_bound (z + half_modulus ty) (modulus ty)). lia.
  - pose proof (Z.mod_pos_bound z (modulus ty)). lia.
Qed.

Lemma wrap_0 ty : 0 < width ty -> wrap ty 0 = 0.
Proof.
  intros Hw. apply wrap_in_range; trivial.
  pose proof (modulus_double_half ty Hw). pose proof (half_modulus_pos ty Hw).
  unfold in_range, min_val, max_val. destruct (is_signed ty); lia.
Qed.

Lemma pattern_eq ty v : pattern ty v = v mod modulus ty.
Proof. reflexivity. Qed.

Lemma wrap_mod ty z : 0 < width ty -> wrap ty z mod modulus ty = z mod modulus ty.
Proof.
  intros Hw. pose proof (modulus_pos ty Hw) as Hm. unfold wrap.
  destruct (is_signed ty).
  - rewrite Zminus_mod, Zmod_mod, <- Zminus_mod. f_equal. lia.
  - apply Zmod_mod.
Qed.

Lemma pattern_wrap ty z : 0 < width ty -> pattern ty (wrap ty z) = z mod modulus ty.
Proof. intros Hw. rewrite pattern_eq. apply wrap_mod; trivial. Qed.

Lemma pattern_range ty v : 0 < width ty -> 0 <= pattern ty v < modulus ty.
Proof.
  intros Hw. rewrite pattern_eq. apply Z.mod_pos_bound, modulus_pos; trivial.
Qed.

Lemma wrap_unsigned ty z : wrap (SignedToUnsigned ty) z = z mod modulus ty.
Proof. reflexivity. Qed.

Lemma in_range_int32 v : in_range int32 v <-> - 2 ^ 31 <= v < 2 ^ 31.
Proof.
  unfold in_range. change (min_val int32) with (- 2 ^ 31).
  change (max_val int32) with (2 ^ 31 - 1). lia.
Qed.

Lemma wrap_mod_arg ty z :
  0 < width ty -> wrap ty (z mod modulus ty) = wrap ty z.
Proof.
  intros Hw. pose proof (modulus_pos ty Hw). unfold wrap.
  destruct (is_signed ty).
  - rewrite Zplus_mod_idemp_l. reflexivity.
  - apply Zmod_mod.
Qed.

Lemma pattern_nonzero ty v :
  0 < width ty -> in_range ty v -> v <> 0 -> pattern ty v <> 0.
Proof.
  intros Hw Hv Hn E. rewrite pattern_eq in E.
  pose proof (modulus_pos ty Hw) as Hm.
  pose proof (modulus_double_half ty Hw) as Hd.
  pose proof (half_modulus_pos ty Hw) as Hh.
  assert (Hb : - half_modulus ty <= v < modulus ty)
    by (unfold in_range, min_val, max_val in Hv; destruct (is_signed ty); lia).
  destruct (Z_lt_le_dec v 0) as [Hneg | Hpos].
  - assert (Hmod : v mod modulus ty = v + modulus ty)
      by (symmetry; apply Z.mod_unique with (q := -1); lia).
    lia.
  - rewrite Z.mod_small in E by lia. contradiction.
Qed.

Lemma testbit_pattern ty v i :
  0 <= i < width ty -> Z.testbit (pattern ty v) i = Z.testbit v i.
Proof. intros Hi. rewrite pattern_eq. apply Z.mod_pow2_bits_low. lia. Qed.

Lemma wrap_uint32_small z : 0 <= z < 2 ^ 32 -> wrap uint32 z = z.
Proof. intros H. unfold wrap. cbn. apply Z.mod_small. exact H. Qed.

Lemma add_uint32_small p q :
  0 <= p + q < 2 ^ 32 -> add uint32 p q = p + q.
Proof. intros H. unfold add. apply wrap_uint32_small, H. Qed.

(** ** Facts on the bits of integers *)

Lemma lor_bound n a b :
  0 <= n -> 0 <= a < 2 ^ n -> 0 <= b < 2 ^ n -> 0 <= Z.lor a b < 2 ^ n.
Proof.
  intros Hn Ha Hb.
  assert (Hnn : 0 <= Z.lor a b) by (apply Z.lor_nonneg; lia).
  split; trivial.
  destruct (Z.eq_dec a 0) as [-> | Ha0]; [rewrite Z.lor_0_l; lia |].
  destruct (Z.eq_dec b 0) as [-> | Hb0]; [rewrite Z.lor_0_r; lia |].
  assert (Hne : Z.lor a b <> 0).
  { intros H0. apply Z.lor_eq_0_iff in H0. lia. }
  apply Z.log2_lt_pow2; [lia |].
  rewrite Z.log2_lor by lia.
  assert (Z.log2 a < n) by (apply Z.log2_lt_pow2; lia).
  assert (Z.log2 b < n) by (apply Z.log2_lt_pow2; lia).
  lia.
Qed.

Lemma shiftr_bound n a s :
  0 <= s -> 0 <= a < 2 ^ n -> 0 <= Z.shiftr a s < 2 ^ n.
Proof.
  intros Hs Ha. rewrite Z.shiftr_div_pow2 by lia.
  assert (Hp : 0 < 2 ^ s) by (apply Z.pow_pos_nonneg; lia).
  split; [apply Z.div_pos; lia |].
  apply Z.le_lt_trans with a; [| lia].
  apply Z.div_le_upper_bound; nia.
Qed.

Lemma lor_disjoint_add p q k :
  0 <= k -> 0 <= p < 2 ^ k -> Z.lor p (q * 2 ^ k) = p + q * 2 ^ k.
Proof.
  intros Hk Hp.
  assert (Hd : Z.land p (q * 2 ^ k) = 0).
  { apply Z.bits_inj'. intros i Hi. rewrite Z.land_spec, Z.bits_0.
    destruct (Z_lt_le_dec i k) as [Hlt | Hge].
    - rewrite Z.mul_pow2_bits_low by lia. apply andb_false_r.
    - replace (Z.testbit p i) with false; [reflexivity |].
      symmetry. destruct (Z.eq_dec p 0) as [-> | Hn]; [apply Z.bits_0 |].
      apply Z.bits_above_log2; [lia |].
      assert (Z.log2 p < k) by (apply Z.log2_lt_pow2; lia). lia. }
  rewrite <- Z.lxor_lor by exact Hd. symmetry. apply Z.add_nocarry_lxor, Hd.
Qed.

Lemma mod_pow2_succ v i :
  0 <= i -> v mod 2 ^ (i + 1) = v mod 2 ^ i + (if Z.testbit v i then 2 ^ i else 0).
Proof.
  intros Hi. assert (Hp : 0 < 2 ^ i) by (apply Z.pow_pos_nonneg; lia).
  rewrite Z.pow_add_r by lia. change (2 ^ 1) with 2.
  rewrite Z.rem_mul_r by lia.
  rewrite <- Z.testbit_spec' by lia.
  destruct (Z.testbit v i); cbn [Z.b2z]; lia.
Qed.

Lemma land_pow2_eqb x n :
  0 <= n -> (Z.land x (2 ^ n) =? 0) = negb (Z.testbit x n).
Proof.
  intros Hn. destruct (Z.testbit x n) eqn:E; cbn [negb].
  - apply Z.eqb_neq. intros H0.
    assert (Hb : Z.testbit (Z.land x (2 ^ n)) n = true)
      by (rewrite Z.land_spec, E, Z.pow2_bits_true by lia; reflexivity).
    rewrite H0, Z.bits_0 in Hb. discriminate.
  - apply Z.eqb_eq. apply Z.bits_inj'. intros i Hi.
    rewrite Z.land_spec, Z.bits_0, Z.pow2_bits_eqb by lia.
    destruct (Z.eqb_spec n i) as [<- | _]; [rewrite E; reflexivity |].
    apply andb_false_r.
Qed.

Lemma land_sign_mask_eqb x n :
  0 <= n -> - 2 ^ n <= x < 2 ^ n ->
  (Z.land x (- 2 ^ n) =? 0) = negb (Z.testbit x n).
Proof.
  intros Hn Hx. assert (Hp : 0 < 2 ^ n) by (apply Z.pow_pos_nonneg; lia).
  replace (- 2 ^ n) with (Z.lnot (Z.ones n))
    by (rewrite Z.ones_equiv; unfold Z.lnot; lia).
  rewrite <- Z.ldiff_land, Z.ldiff_ones_r by lia.
  rewrite Z.shiftr_div_pow2, Z.shiftl_mul_pow2 by lia.
  pose proof (Z.testbit_spec' x n Hn) as Hb.
  destruct (Z_lt_le_dec x 0) as [Hneg | Hpos].
  - assert (Hq : x / 2 ^ n = -1).
    { symmetry. apply Z.div_unique with (r := x + 2 ^ n); lia. }
    rewrite Hq in *. change ((-1) mod 2) with 1 in Hb.
    destruct (Z.testbit x n); [| discriminate].
    cbn [negb]. apply Z.eqb_neq. lia.
  - rewrite (Z.div_small x) in * by lia. change (0 mod 2) with 0 in Hb.
    destruct (Z.testbit x n); [discriminate | reflexivity].
Qed.

(** The mask [( type ) 1 << ( width - 1 )] selects the top bit of a value
    of the type. *)
Lemma top_mask_test ty v :
  0 < width ty -> in_range ty v ->
  (Z.land v (shl ty 1 (width ty - 1)) =? 0) = negb (Z.testbit v (width ty - 1)).
Proof.
  intros Hw Hv. pose proof (half_modulus_pos ty Hw) as Hh.
  pose proof (modulus_double_half ty Hw) as Hm.
  unfold shl. rewrite Z.shiftl_mul_pow2, Z.mul_1_l by lia.
  fold (half_modulus ty). unfold wrap, in_range, min_val, max_val in *.
  destruct (is_signed ty).
  - replace ((half_modulus ty + half_modulus ty) mod modulus ty
             - half_modulus ty) with (- half_modulus ty).
    + unfold half_modulus in *. apply land_sign_mask_eqb; lia.
    + replace (half_modulus ty + half_modulus ty) with (modulus ty) by lia.
      rewrite Z.mod_same by lia. lia.
  - rewrite Z.mod_small by lia. unfold half_modulus. apply land_pow2_eqb; lia.
Qed.

Lemma sign_bits m n :
  - 2 ^ 31 <= m < 2 ^ 31 -> 31 <= n -> Z.testbit m n = (m <? 0).
Proof.
  intros Hm Hn.
  assert (Hp : 2 ^ 31 <= 2 ^ n) by (apply Z.pow_le_mono_r; lia).
  pose proof (Z.testbit_spec' m n ltac:(lia)) as Hb.
  destruct (Z.ltb_spec m 0) as [Hneg | Hpos].
  - assert (Hq : m / 2 ^ n = -1).
    { symmetry. apply Z.div_unique with (r := m + 2 ^ n); lia. }
    rewrite Hq in Hb. change ((-1) mod 2) with 1 in Hb.
    destruct (Z.testbit m n); [reflexivity | discriminate].
  - rewrite Z.div_small in Hb by lia.
    destruct (Z.testbit m n); [discriminate | reflexivity].
Qed.

Lemma land_1_wrap ty z : 0 < width ty -> Z.land (wrap ty z) 1 = Z.land z 1.
Proof.
  intros Hw. change 1 with (Z.ones 1). rewrite !Z.land_ones by lia.
  change (2 ^ 1) with 2. rewrite <- !Z.bit0_mod. f_equal.
  rewrite <- (testbit_pattern ty (wrap ty z)) by lia.
  rewrite pattern_wrap by trivial. unfold modulus.
  apply Z.mod_pow2_bits_low. lia.
Qed.

Lemma land_1_shifted x p : 1 <= p -> Z.land (Z.shiftl x p) 1 = 0.
Proof.
  intros Hp. change 1 with (Z.ones 1). rewrite Z.land_ones by lia.
  change (2 ^ 1) with 2. rewrite <- Z.bit0_mod.
  rewrite Z.shiftl_mul_pow2, Z.mul_pow2_bits_low by lia. reflexivity.
Qed.

Lemma testbit_wrap ty z i :
  0 <= i < width ty -> Z.testbit (wrap ty z) i = Z.testbit z i.
Proof.
  intros Hi. rewrite <- (testbit_pattern ty (wrap ty z)) by lia.
  rewrite pattern_wrap by lia. unfold modulus.
  apply Z.mod_pow2_bits_low. lia.
Qed.

(** Two integers with the same low [width] bits convert to the same value. *)
Lemma wrap_eq_bits ty x y :
  0 < width ty ->
  (forall i, 0 <= i < width ty -> Z.testbit x i = Z.testbit y i) ->
  wrap ty x = wrap ty y.
Proof.
  intros Hw Hbits.
  rewrite <- (wrap_mod_arg ty x), <- (wrap_mod_arg ty y) by trivial.
  f_equal. unfold modulus. apply Z.bits_inj'. intros i Hi.
  destruct (Z_lt_le_dec i (width ty)) as [Hlt | Hge].
  - rewrite !Z.mod_pow2_bits_low by lia. apply Hbits. lia.
  - rewrite !Z.mod_pow2_bits_high by lia. reflexivity.
Qed.

(** ** modPowerOfTwo *)

Lemma pow2_in_range_bound ty k :
  0 < width ty -> 0 <= k -> in_range ty (2 ^ k) -> k < width ty.
Proof.
  intros Hw Hk Hr.
  destruct (Z_lt_le_dec k (width ty)) as [Hlt | Hge]; trivial.
  exfalso.
  assert (Hle : 2 ^ width ty <= 2 ^ k) by (apply Z.pow_le_mono_r; lia).
  pose proof (modulus_double_half ty Hw) as Hm.
  pose proof (half_modulus_pos ty Hw) as Hh.
  unfold in_range, min_val, max_val, modulus in *.
  destruct (is_signed ty); lia.
Qed.

Lemma three_not_pow2 : ~ exists k, 0 <= k /\ 3 = 2 ^ k.
Proof.
  intros [k [Hk H3]].
  assert (Hc : k = 0 \/ k = 1 \/ 2 <= k) by lia.
  destruct Hc as [-> | [-> | Hk2]]; try discriminate.
  assert (H4 : 2 ^ 2 <= 2 ^ k) by (apply Z.pow_le_mono_r; lia).
  change (2 ^ 2) with 4 in H4. lia.
Qed.

(** C8, as stated, fails: 3 is not a power of two, yet no assertion fails
    for the modulus 3, and the result is [7 & 2 = 2], not [7 mod 3]. *)
Lemma modPowerOfTwo_accepts_non_power :
  (~ exists k, 0 <= k /\ 3 = 2 ^ k) /\
  isPowerOfTwo uint32 3 = false /\
  modPowerOfTwo uint32 7 3 = Some 2 /\
  7 mod 3 <> 2.
Proof.
  split; [exact three_not_pow2 |].
  repeat split; try reflexivity. vm_compute. discriminate.
Qed.

(** C8, amended: the assertion of [modPowerOfTwo] fails exactly when the
    modulus is 0; a nonzero modulus that is not a power of two is accepted.
    For every nonzero modulus the result is [v & (p - 1)], and when the
    modulus is a power of two this is the non-negative remainder
    [v mod p]. *)
Theorem modPowerOfTwo_spec ty v p :
  width ty = 32 -> in_range ty v -> in_range ty p ->
  (modPowerOfTwo ty v p = None <-> p = 0) /\
  (p <> 0 -> modPowerOfTwo ty v p = Some (band ty v (sub ty p 1))) /\
  (forall k, 0 <= k -> p = 2 ^ k -> modPowerOfTwo ty v p = Some (v mod p)).
Proof.
  intros Hw Hv Hp. assert (Hw0 : 0 < width ty) by lia.
  unfold modPowerOfTwo. repeat split.
  - destruct (Z.eqb_spec p 0); [trivial | discriminate].
  - intros ->. reflexivity.
  - intros Hn. destruct (Z.eqb_spec p 0); [contradiction | reflexivity].
  - intros k Hk ->.
    pose proof (pow2_in_range_bound ty k Hw0 Hk Hp) as Hkw.
    assert (Hpos : 0 < 2 ^ k) by (apply Z.pow_pos_nonneg; lia).
    destruct (Z.eqb_spec (2 ^ k) 0); [lia |].
    f_equal. unfold band, sub.
    assert (Hr1 : in_range ty (2 ^ k - 1)).
    { pose proof (half_modulus_pos ty Hw0).
      unfold in_range, min_val, max_val in *. destruct (is_signed ty); lia. }
    rewrite (wrap_in_range ty _ Hw0 Hr1).
    replace (2 ^ k - 1) with (Z.ones k) by (rewrite Z.ones_equiv; lia).
    rewrite Z.land_ones by lia.
    apply wrap_in_range; trivial.
    pose proof (Z.mod_pos_bound v (2 ^ k) Hpos).
    pose proof (half_modulus_pos ty Hw0).
    unfold in_range, min_val, max_val in *. destruct (is_signed ty); lia.
Qed.

Lemma modPowerOfTwo_spec_witness :
  (modPowerOfTwo int32 (-3) 8 = None <-> 8 = 0) /\
  (8 <> 0 -> modPowerOfTwo int32 (-3) 8 = Some (band int32 (-3) (sub int32 8 1))) /\
  (forall k, 0 <= k -> 8 = 2 ^ k -> modPowerOfTwo int32 (-3) 8 = Some ((-3) mod 8)).
Proof.
  apply (modPowerOfTwo_spec int32 (-3) 8).
  - reflexivity.
  - range_solve.
  - range_solve.
Defined.

(** ** powerOfTwo *)

Lemma filled_init x : 0 < x -> filled (Z.log2 x) 1 x.
Proof.
  intros Hx. pose proof (Z.log2_spec x Hx) as Hs.
  split.
  - unfold Z.succ in Hs. lia.
  - intros i Hi Hlt. replace i with (Z.log2 x) by lia. apply Z.bit_log2, Hx.
Qed.

Lemma filled_step k m x :
  0 <= k -> 0 < m -> filled k m x ->
  filled k (2 * m) (Z.lor x (Z.shiftr x m)).
Proof.
  intros Hk Hm [Hr Hb]. split.
  - apply lor_bound; [lia | lia |]. apply shiftr_bound; lia.
  - intros i Hi Hlt. rewrite Z.lor_spec, Z.shiftr_spec by lia.
    destruct (Z_lt_le_dec (k - m) i) as [Hc | Hc].
    + rewrite Hb by lia. reflexivity.
    + rewrite (Hb (i + m)) by lia. apply orb_true_r.
Qed.

Lemma filled_all k m x : 0 <= k < m -> filled k m x -> x = Z.ones (k + 1).
Proof.
  intros Hk [Hr Hb]. apply Z.bits_inj'. intros i Hi.
  destruct (Z_lt_le_dec k i) as [Hc | Hc].
  - rewrite Z.ones_spec_high by lia.
    destruct (Z.eq_dec x 0) as [-> | Hx0]; [apply Z.bits_0 |].
    apply Z.bits_above_log2; [lia |].
    assert (Z.log2 x < k + 1) by (apply Z.log2_lt_pow2; lia). lia.
  - rewrite Z.ones_spec_low by lia. apply Hb; lia.
Qed.

Lemma powerOfTwo_fill_op x s :
  0 <= s -> 0 <= x < 2 ^ 32 ->
  bor uint32 x (shr uint32 x s) = Z.lor x (Z.shiftr x s).
Proof.
  intros Hs Hx. unfold bor, shr.
  pose proof (shiftr_bound 32 x s Hs Hx) as Hsh.
  rewrite (wrap_uint32_small (Z.shiftr x s)) by exact Hsh.
  apply wrap_uint32_small. apply lor_bound; lia.
Qed.

Lemma filled_lt32 k m x : 0 <= k <= 30 -> filled k m x -> 0 <= x < 2 ^ 32.
Proof.
  intros Hk [Hr _].
  assert (2 ^ (k + 1) <= 2 ^ 31) by (apply Z.pow_le_mono_r; lia).
  assert (2 ^ 31 < 2 ^ 32) by (apply Z.pow_lt_mono_r; lia).
  lia.
Qed.

(** The fill-and-increment computes [2 ^ ceil(log2 v)]. *)
Lemma powerOfTwo_log2_up v :
  1 <= v <= 2 ^ 31 -> powerOfTwo v = 2 ^ Z.log2_up v.
Proof.
  intros Hv.
  destruct (Z.eq_dec v 1) as [-> | Hv1]; [reflexivity |].
  assert (Hx : 0 < v - 1) by lia.
  rewrite Z.log2_up_eqn by lia.
  change (Z.pred v) with (v - 1). unfold Z.succ.
  set (k := Z.log2 (v - 1)).
  assert (Hk : 0 <= k <= 30).
  { split; [apply Z.log2_nonneg |].
    assert (k < 31) by (apply Z.log2_lt_pow2; lia). lia. }
  assert (H31 : 2 ^ 31 < 2 ^ 32) by (apply Z.pow_lt_mono_r; lia).
  unfold powerOfTwo.
  assert (E0 : sub uint32 v 1 = v - 1)
    by (unfold sub; apply wrap_uint32_small; lia).
  rewrite E0.
  pose proof (filled_init (v - 1) Hx) as F0. fold k in F0.
  rewrite (powerOfTwo_fill_op (v - 1) 1) by lia.
  set (x1 := Z.lor (v - 1) (Z.shiftr (v - 1) 1)).
  assert (F1 : filled k 2 x1) by (apply (filled_step k 1); trivial; lia).
  rewrite (powerOfTwo_fill_op x1 2) by (try lia; exact (filled_lt32 _ _ _ Hk F1)).
  set (x2 := Z.lor x1 (Z.shiftr x1 2)).
  assert (F2 : filled k 4 x2) by (apply (filled_step k 2); trivial; lia).
  rewrite (powerOfTwo_fill_op x2 4) by (try lia; exact (filled_lt32 _ _ _ Hk F2)).
  set (x3 := Z.lor x2 (Z.shiftr x2 4)).
  assert (F3 : filled k 8 x3) by (apply (filled_step k 4); trivial; lia).
  rewrite (powerOfTwo_fill_op x3 8) by (try lia; exact (filled_lt32 _ _ _ Hk F3)).
  set (x4 := Z.lor x3 (Z.shiftr x3 8)).
  assert (F4 : filled k 16 x4) by (apply (filled_step k 8); trivial; lia).
  rewrite (powerOfTwo_fill_op x4 16) by (try lia; exact (filled_lt32 _ _ _ Hk F4)).
  set (x5 := Z.lor x4 (Z.shiftr x4 16)).
  assert (F5 : filled k 32 x5) by (apply (filled_step k 16); trivial; lia).
  rewrite (filled_all k 32 _ ltac:(lia) F5).
  unfold add. rewrite Z.ones_equiv.
  replace (Z.pred (2 ^ (k + 1)) + 1) with (2 ^ (k + 1)) by lia.
  apply wrap_uint32_small.
  assert (0 < 2 ^ (k + 1)) by (apply Z.pow_pos_nonneg; lia).
  assert (2 ^ (k + 1) <= 2 ^ 31) by (apply Z.pow_le_mono_r; lia).
  lia.
Qed.

Lemma isPowerOfTwo_pow2 j : 0 <= j <= 31 -> isPowerOfTwo uint32 (2 ^ j) = true.
Proof.
  intros Hj.
  assert (Hall : forallb (fun n => isPowerOfTwo uint32 (2 ^ Z.of_nat n))
                   (seq 0 32) = true) by (vm_compute; reflexivity).
  rewrite forallb_forall in Hall.
  specialize (Hall (Z.to_nat j)).
  rewrite Z2Nat.id in Hall by lia.
  apply Hall, in_seq. lia.
Qed.

Lemma isPowerOfTwo_negation v :
  add uint32 (bnot uint32 v) 1 = (- v) mod 2 ^ 32.
Proof.
  unfold add, bnot, wrap. cbn [is_signed uint32].
  change (modulus uint32) with (2 ^ 32).
  rewrite Zplus_mod_idemp_l. f_equal. unfold Z.lnot. lia.
Qed.

(** A nonzero value that passes [isPowerOfTwo] has exactly one bit set. *)
Lemma isPowerOfTwo_inv v :
  1 <= v < 2 ^ 32 -> isPowerOfTwo uint32 v = true -> v = 2 ^ Z.log2 v.
Proof.
  intros Hv Hp. unfold isPowerOfTwo in Hp.
  rewrite isPowerOfTwo_negation in Hp. apply Z.eqb_eq in Hp.
  unfold band, wrap in Hp. cbn [is_signed uint32] in Hp.
  change (modulus uint32) with (2 ^ 32) in Hp.
  set (k := Z.log2 v).
  assert (Hs : 2 ^ k <= v < 2 ^ (k + 1)) by (apply Z.log2_spec; lia).
  assert (Hk0 : 0 <= k) by apply Z.log2_nonneg.
  assert (Hk : k < 32) by (apply Z.log2_lt_pow2; lia).
  destruct (Z.eq_dec v (2 ^ k)) as [E | N]; trivial.
  exfalso.
  assert (Hbit : Z.testbit v k = true) by (apply Z.bit_log2; lia).
  assert (Hlow : Z.log2 (v - 1) = k) by (apply Z.log2_unique; unfold Z.succ; lia).
  assert (Hbit' : Z.testbit (v - 1) k = true).
  { rewrite <- Hlow. apply Z.bit_log2. 
    assert (0 < 2 ^ k) by (apply Z.pow_pos_nonneg; lia). lia. }
  assert (Hc : Z.testbit (Z.land v ((- v) mod 2 ^ 32) mod 2 ^ 32) k = false).
  { rewrite Z.mod_pow2_bits_low, Z.land_spec, Z.mod_pow2_bits_low by lia.
    replace (- v) with (Z.lnot (v - 1)) by (unfold Z.lnot; lia).
    rewrite Z.lnot_spec, Hbit' by lia. apply andb_false_r. }
  rewrite Hp, Hbit in Hc. discriminate.
Qed.

(** C9: for every unsigned 32-bit [v] with [1 <= v <= 2 ^ 31],
    [powerOfTwo v] is the smallest power of two that is at least [v]: it
    passes [isPowerOfTwo], it is a power of two, it is at least [v] and
    below [2 * v], no power of two lies between [v] and it, and it is [v]
    itself when [v] is a power of two (as a number, or as [isPowerOfTwo]
    tells). *)
Theorem powerOfTwo_round_up v :
  1 <= v <= 2 ^ 31 ->
  isPowerOfTwo uint32 (powerOfTwo v) = true /\
  (exists k, 0 <= k <= 31 /\ powerOfTwo v = 2 ^ k) /\
  v <= powerOfTwo v /\
  powerOfTwo v < 2 * v /\
  (forall k, 0 <= k -> v <= 2 ^ k -> powerOfTwo v <= 2 ^ k) /\
  (forall k, 0 <= k -> v = 2 ^ k -> powerOfTwo v = v) /\
  (isPowerOfTwo uint32 v = true -> powerOfTwo v = v).
Proof.
  intros Hv. rewrite (powerOfTwo_log2_up v Hv).
  assert (Hl0 : 0 <= Z.log2_up v) by apply Z.log2_up_nonneg.
  assert (Hl31 : Z.log2_up v <= 31) by (apply Z.log2_up_le_pow2; lia).
  assert (Hpow : forall k, 0 <= k -> v = 2 ^ k -> 2 ^ Z.log2_up v = v).
  { intros k Hk ->. rewrite Z.log2_up_pow2 by lia. reflexivity. }
  split; [apply isPowerOfTwo_pow2; lia |].
  split; [exists (Z.log2_up v); split; [lia | reflexivity] |].
  split; [apply Z.log2_up_le_pow2; lia |].
  split.
  { destruct (Z.eq_dec v 1) as [-> | Hv1]; [reflexivity |].
    pose proof (Z.log2_up_spec v ltac:(lia)) as [Hlo _].
    assert (Hl1 : 0 < Z.log2_up v) by (apply Z.log2_up_pos; lia).
    replace (Z.log2_up v) with (Z.succ (Z.pred (Z.log2_up v))) at 1 by lia.
    rewrite Z.pow_succ_r by lia. lia. }
  split.
  { intros k Hk Hle. apply Z.pow_le_mono_r; [lia |].
    apply Z.log2_up_le_pow2; lia. }
  split; [exact Hpow |].
  intros Hp. apply (Hpow (Z.log2 v)); [apply Z.log2_nonneg |].
  apply isPowerOfTwo_inv; trivial.
  assert (2 ^ 31 < 2 ^ 32) by (apply Z.pow_lt_mono_r; lia). lia.
Qed.

Lemma powerOfTwo_round_up_witness :
  isPowerOfTwo uint32 (powerOfTwo 5) = true /\
  (exists k, 0 <= k <= 31 /\ powerOfTwo 5 = 2 ^ k) /\
  5 <= powerOfTwo 5 /\
  powerOfTwo 5 < 2 * 5 /\
  (forall k, 0 <= k -> 5 <= 2 ^ k -> powerOfTwo 5 <= 2 ^ k) /\
  (forall k, 0 <= k -> 5 = 2 ^ k -> powerOfTwo 5 = 5) /\
  (isPowerOfTwo uint32 5 = true -> powerOfTwo 5 = 5).
Proof.
  apply (powerOfTwo_round_up 5). cbn. lia.
Defined.

(** ** countLeadingZeros *)

Lemma top_bit_pattern ty v :
  0 < width ty ->
  Z.testbit v (width ty - 1) = (half_modulus ty <=? pattern ty v).
Proof.
  intros Hw. pose proof (half_modulus_pos ty Hw) as Hh.
  pose proof (modulus_double_half ty Hw) as Hm.
  pose proof (pattern_range ty v Hw) as Hu.
  rewrite <- (testbit_pattern ty v) by lia.
  pose proof (Z.testbit_spec' (pattern ty v) (width ty - 1) ltac:(lia)) as Hb.
  fold (half_modulus ty) in Hb.
  destruct (Z.leb_spec (half_modulus ty) (pattern ty v)) as [Hc | Hc].
  - assert (Hq : pattern ty v / half_modulus ty = 1).
    { symmetry. apply Z.div_unique with (r := pattern ty v - half_modulus ty); lia. }
    rewrite Hq in Hb. destruct (Z.testbit (pattern ty v) (width ty - 1));
      [reflexivity | discriminate].
  - rewrite Z.div_small in Hb by lia.
    destruct (Z.testbit (pattern ty v) (width ty - 1));
      [discriminate | reflexivity].
Qed.

Lemma countLeadingZeros_loop_spec ty :
  0 < width ty ->
  forall remaining value count,
    in_range ty value -> Z.of_nat remaining <= width ty ->
    0 <= count -> count + Z.of_nat remaining < 2 ^ 32 ->
    countLeadingZeros_loop ty (shl ty 1 (width ty - 1)) remaining value count
    = if pattern ty value / 2 ^ (width ty - Z.of_nat remaining) =? 0
      then count + Z.of_nat remaining
      else count + (width ty - 1 - Z.log2 (pattern ty value)).
Proof.
  intros Hw. pose proof (half_modulus_pos ty Hw) as Hh.
  pose proof (modulus_double_half ty Hw) as Hm.
  induction remaining as [| r IH]; intros value count Hv Hr Hc Hb;
    pose proof (pattern_range ty value Hw) as Hu.
  - cbn [countLeadingZeros_loop Z.of_nat]. rewrite Z.sub_0_r.
    fold (modulus ty). rewrite Z.div_small by lia. cbn. lia.
  - cbn [countLeadingZeros_loop].
    rewrite top_mask_test, top_bit_pattern by trivial.
    assert (Hpow : 0 < 2 ^ (width ty - Z.of_nat (S r)))
      by (apply Z.pow_pos_nonneg; lia).
    assert (Hple : 2 ^ (width ty - Z.of_nat (S r)) <= half_modulus ty)
      by (apply Z.pow_le_mono_r; lia).
    destruct (Z.leb_spec (half_modulus ty) (pattern ty value)) as [Htop | Htop];
      cbn [negb].
    + assert (Hlog : Z.log2 (pattern ty value) = width ty - 1).
      { apply Z.log2_unique; [lia |]. unfold Z.succ.
        replace (width ty - 1 + 1) with (width ty) by lia.
        fold (half_modulus ty) (modulus ty). lia. }
      destruct (Z.eqb_spec (pattern ty value / 2 ^ (width ty - Z.of_nat (S r))) 0)
        as [E | _]; [| lia].
      apply Z.div_small_iff in E; lia.
    + assert (Hv' : in_range ty (shl ty value 1)) by (apply wrap_range; trivial).
      assert (Hp' : pattern ty (shl ty value 1) = 2 * pattern ty value).
      { unfold shl. rewrite pattern_wrap, Z.shiftl_mul_pow2 by lia.
        change (2 ^ 1) with 2. rewrite <- Z.mul_mod_idemp_l by lia.
        rewrite <- (pattern_eq ty value). rewrite Z.mod_small; lia. }
      assert (Hadd : add uint32 count 1 = count + 1)
        by (unfold add; apply wrap_uint32_small; lia).
      rewrite Hadd, IH by (trivial; lia).
      rewrite Hp'.
      replace (width ty - Z.of_nat r)
        with (1 + (width ty - Z.of_nat (S r))) by lia.
      rewrite Z.pow_add_r by lia. change (2 ^ 1) with 2.
      rewrite Z.div_mul_cancel_l by lia.
      destruct (Z.eqb_spec (pattern ty value / 2 ^ (width ty - Z.of_nat (S r))) 0)
        as [E | N]; [lia |].
      assert (Hpos : 0 < pattern ty value).
      { destruct (Z.eq_dec (pattern ty value) 0) as [E0 | N0]; [| lia].
        rewrite E0, Z.div_0_l in N by lia. contradiction. }
      rewrite Z.log2_double by lia. lia.
Qed.

(** [countLeadingZeros] counts the zero bits above the topmost set bit of
    the bit pattern, and is the width for 0. *)
Lemma countLeadingZeros_spec ty v :
  0 < width ty <= 64 -> in_range ty v ->
  countLeadingZeros ty v
  = if pattern ty v =? 0 then width ty
    else width ty - 1 - Z.log2 (pattern ty v).
Proof.
  intros Hw Hv. unfold countLeadingZeros.
  rewrite countLeadingZeros_loop_spec; trivial; try lia.
  rewrite Z2Nat.id, Z.sub_diag, Z.pow_0_r, Z.div_1_r by lia.
  destruct (pattern ty v =? 0); lia.
Qed.

(** ** popc *)

(** On a negative value of a signed type the shift [value >>= 1] keeps the
    sign, so [value] never reaches 0: the loop is still running after any
    number of iterations. *)
Lemma popc_loop_negative ty fuel :
  0 < width ty -> is_signed ty = true ->
  forall v count, in_range ty v -> v < 0 -> popc_loop ty fuel v count = None.
Proof.
  intros Hw Hs. induction fuel as [| fuel IH]; intros v count Hv Hneg.
  - unfold popc_loop. destruct (Z.eqb_spec v 0); [lia | reflexivity].
  - cbn [popc_loop]. destruct (Z.eqb_spec v 0); [lia |].
    assert (Hhalf : Z.shiftr v 1 = v / 2)
      by (rewrite Z.shiftr_div_pow2 by lia; reflexivity).
    assert (Hr : in_range ty (Z.shiftr v 1)).
    { rewrite Hhalf. pose proof (half_modulus_pos ty Hw).
      unfold in_range, min_val, max_val in *. rewrite Hs in *.
      pose proof (Z.div_mod v 2). pose proof (Z.mod_pos_bound v 2). lia. }
    unfold shr. rewrite (wrap_in_range ty _ Hw Hr).
    apply IH; trivial.
    rewrite Hhalf. pose proof (Z.div_mod v 2). pose proof (Z.mod_pos_bound v 2).
    lia.
Qed.

(** C4 (the code departs from it): [popc] is not total on signed types.  For
    the [int] value -1, and for the [signed char] value -128, the loop has
    not returned after [fuel] iterations, whatever [fuel] is. *)
Theorem popc_signed_negative_never_returns :
  forall fuel, popc int32 fuel (-1) = None /\ popc int8 fuel (-128) = None.
Proof.
  intros fuel. unfold popc.
  split; apply popc_loop_negative; try reflexivity; range_solve.
Qed.

Lemma bits_set_succ n v :
  bits_set (S n) v = Z.b2z (Z.testbit v 0) + bits_set n (Z.shiftr v 1).
Proof.
  unfold bits_set. cbn [seq filter]. rewrite <- seq_shift, filter_map_swap.
  change (Z.of_nat 0) with 0.
  assert (E : filter (fun a => Z.testbit v (Z.of_nat (S a))) (seq 0 n)
              = filter (fun i => Z.testbit (Z.shiftr v 1) (Z.of_nat i)) (seq 0 n)).
  { apply filter_ext. intros i. rewrite Z.shiftr_spec by lia.
    f_equal. lia. }
  rewrite E. destruct (Z.testbit v 0); cbn [Z.b2z length];
    rewrite ?length_map; lia.
Qed.

Lemma bits_set_bounds n v : 0 <= bits_set n v <= Z.of_nat n.
Proof.
  unfold bits_set. split; [lia |].
  pose proof (filter_length (fun i => Z.testbit v (Z.of_nat i)) (seq 0 n)) as H.
  rewrite length_seq in H. lia.
Qed.

Lemma bits_set_0 n : bits_set n 0 = 0.
Proof.
  induction n as [| n IH]; [reflexivity |].
  rewrite bits_set_succ, Z.bits_0, Z.shiftr_0_l, IH. reflexivity.
Qed.

(** From a value below [2 ^ n] the loop returns within [n] iterations, with
    the number of set bits added to [count]. *)
Lemma popc_loop_nonneg ty :
  0 < width ty ->
  forall n fuel v count,
    (n <= fuel)%nat -> in_range ty v -> 0 <= v < 2 ^ Z.of_nat n ->
    0 <= count -> count + Z.of_nat n < 2 ^ 32 ->
    popc_loop ty fuel v count = Some (count + bits_set n v).
Proof.
  intros Hw. induction n as [| n IH]; intros fuel v count Hf Hr Hv Hc Hb.
  - assert (v = 0) by (change (2 ^ Z.of_nat 0) with 1 in Hv; lia). subst v.
    destruct fuel; cbn; f_equal; lia.
  - destruct (Z.eq_dec v 0) as [-> | Hn].
    + rewrite bits_set_0. destruct fuel; cbn; f_equal; lia.
    + destruct fuel as [| fuel]; [lia |].
      cbn [popc_loop]. destruct (Z.eqb_spec v 0); [contradiction |].
      assert (Hhalf : Z.shiftr v 1 = v / 2)
        by (rewrite Z.shiftr_div_pow2 by lia; reflexivity).
      assert (Hv' : 0 <= v / 2 < 2 ^ Z.of_nat n).
      { rewrite Nat2Z.inj_succ, Z.pow_succ_r in Hv by lia.
        pose proof (Z.div_mod v 2). pose proof (Z.mod_pos_bound v 2). lia. }
      assert (Hr' : in_range ty (Z.shiftr v 1)).
      { rewrite Hhalf. unfold in_range, min_val, max_val in *.
        pose proof (half_modulus_pos ty Hw).
        pose proof (Z.div_mod v 2). pose proof (Z.mod_pos_bound v 2).
        destruct (is_signed ty); lia. }
      unfold shr. rewrite (wrap_in_range ty _ Hw Hr').
      pose proof (bits_set_bounds n (Z.shiftr v 1)) as Hbs.
      rewrite bits_set_succ.
      replace (Z.land v 1 =? 0) with (negb (Z.testbit v 0))
        by (symmetry; apply (land_pow2_eqb v 0); lia).
      rewrite negb_involutive.
      rewrite Nat2Z.inj_succ in Hb.
      destruct (Z.testbit v 0); cbn [Z.b2z].
      * rewrite add_uint32_small by lia.
        rewrite IH; trivial; try lia; try (rewrite Hhalf; exact Hv').
        f_equal. lia.
      * rewrite IH; trivial; try lia; try (rewrite Hhalf; exact Hv').
Qed.

(** [popc] returns the Hamming weight of every value that is not negative,
    so of every value of an unsigned type, within [width] iterations. *)
Lemma popc_nonneg_spec ty v fuel :
  0 < width ty <= 64 -> in_range ty v -> 0 <= v ->
  (Z.to_nat (width ty) <= fuel)%nat ->
  popc ty fuel v = Some (hamming_weight ty v).
Proof.
  intros Hw Hr Hv Hf. unfold popc, hamming_weight.
  rewrite (popc_loop_nonneg ty ltac:(lia) (Z.to_nat (width ty)));
    trivial; try lia.
  rewrite Z2Nat.id by lia.
  pose proof (modulus_double_half ty ltac:(lia)).
  pose proof (half_modulus_pos ty ltac:(lia)).
  unfold in_range, min_val, max_val, modulus in *.
  destruct (is_signed ty); lia.
Qed.

Lemma hamming_weight_bounds ty v :
  0 < width ty -> 0 <= hamming_weight ty v <= width ty.
Proof.
  intros Hw. unfold hamming_weight.
  pose proof (bits_set_bounds (Z.to_nat (width ty)) v). lia.
Qed.

Lemma hamming_weight_complement ty v :
  0 < width ty ->
  hamming_weight ty v + hamming_weight ty (bnot ty v) = width ty.
Proof.
  intros Hw. unfold hamming_weight, bits_set.
  set (n := Z.to_nat (width ty)).
  assert (E : filter (fun i => Z.testbit (bnot ty v) (Z.of_nat i)) (seq 0 n)
              = filter (fun i => negb (Z.testbit v (Z.of_nat i))) (seq 0 n)).
  { apply filter_ext_in. intros i Hi. apply in_seq in Hi.
    unfold bnot. rewrite <- (testbit_pattern ty (wrap ty _)) by lia.
    rewrite pattern_wrap by trivial. unfold modulus.
    rewrite Z.mod_pow2_bits_low by lia. apply Z.lnot_spec. lia. }
  rewrite E.
  pose proof (filter_length (fun i => Z.testbit v (Z.of_nat i)) (seq 0 n)) as H.
  rewrite length_seq in H. lia.
Qed.

(** On the unsigned types the population count is as specified: [popc]
    returns, it returns the Hamming weight, which is between 0 and the
    width, and the counts of a value and of its complement add up to the
    width. *)
Lemma popc_unsigned_spec ty v :
  0 < width ty <= 64 -> is_signed ty = false -> in_range ty v ->
  exists pv pnv,
    popc ty (Z.to_nat (width ty)) v = Some pv /\
    popc ty (Z.to_nat (width ty)) (bnot ty v) = Some pnv /\
    pv = hamming_weight ty v /\
    0 <= pv <= width ty /\
    pv + pnv = width ty.
Proof.
  intros Hw Hs Hr.
  assert (Hnn : forall z, in_range ty z -> 0 <= z).
  { intros z Hz. unfold in_range, min_val in Hz. rewrite Hs in Hz. lia. }
  assert (Hr' : in_range ty (bnot ty v)) by (apply wrap_range; lia).
  exists (hamming_weight ty v), (hamming_weight ty (bnot ty v)).
  split; [apply popc_nonneg_spec; auto |].
  split; [apply popc_nonneg_spec; auto |].
  split; [reflexivity |].
  split; [apply hamming_weight_bounds; lia |].
  apply hamming_weight_complement. lia.
Qed.

(** ** bfind *)

Section BfindFacts.

Variable shl_oob : Z -> Z.

Lemma int_one_shl_range i : - 2 ^ 31 <= int_one_shl shl_oob i < 2 ^ 31.
Proof.
  assert (H : forall z, - 2 ^ 31 <= wrap int32 z < 2 ^ 31).
  { intros z. apply in_range_int32, wrap_range. range_solve. }
  unfold int_one_shl, shl. destruct (i <? 32); apply H.
Qed.

Lemma int_one_shl_low i : 0 <= i <= 30 -> int_one_shl shl_oob i = 2 ^ i.
Proof.
  intros Hi. unfold int_one_shl, shl.
  destruct (Z.ltb_spec i 32); [| lia].
  rewrite Z.shiftl_mul_pow2, Z.mul_1_l by lia.
  apply wrap_in_range; [range_solve |].
  assert (0 < 2 ^ i) by (apply Z.pow_pos_nonneg; lia).
  assert (2 ^ i <= 2 ^ 30) by (apply Z.pow_le_mono_r; lia).
  apply in_range_int32. lia.
Qed.

Lemma int_one_shl_31 : int_one_shl shl_oob 31 = - 2 ^ 31.
Proof. reflexivity. Qed.

(** On operands of common type [int] the test reads bit [i]. *)
Lemma bfind_test_int v i :
  in_range int32 v -> 0 <= i <= 31 ->
  negb (Z.land (wrap int32 v) (wrap int32 (int_one_shl shl_oob i)) =? 0)
  = Z.testbit v i.
Proof.
  intros Hv Hi. rewrite (wrap_in_range int32 v) by (trivial; range_solve).
  assert (Hr : - 2 ^ 31 <= v < 2 ^ 31) by (apply in_range_int32, Hv).
  destruct (Z.eq_dec i 31) as [-> | Hne].
  - rewrite int_one_shl_31.
    change (wrap int32 (- 2 ^ 31)) with (- 2 ^ 31).
    rewrite land_sign_mask_eqb by lia. apply negb_involutive.
  - rewrite int_one_shl_low by lia.
    rewrite (wrap_in_range int32 (2 ^ i)).
    + rewrite land_pow2_eqb by lia. apply negb_involutive.
    + range_solve.
    + rewrite <- (int_one_shl_low i) by lia.
      apply in_range_int32, int_one_shl_range.
Qed.

(** On operands of common type [unsigned int] as well. *)
Lemma bfind_test_uint v i :
  in_range uint32 v -> 0 <= i <= 31 ->
  negb (Z.land (wrap uint32 v) (wrap uint32 (int_one_shl shl_oob i)) =? 0)
  = Z.testbit v i.
Proof.
  intros Hv Hi. rewrite (wrap_in_range uint32 v) by (trivial; range_solve).
  assert (E : wrap uint32 (int_one_shl shl_oob i) = 2 ^ i).
  { unfold int_one_shl, shl. destruct (Z.ltb_spec i 32); [| lia].
    change (wrap uint32 (wrap int32 (Z.shiftl 1 i)))
      with (wrap int32 (Z.shiftl 1 i) mod modulus int32).
    rewrite wrap_mod by range_solve.
    rewrite Z.shiftl_mul_pow2, Z.mul_1_l by lia.
    apply Z.mod_small. change (modulus int32) with (2 ^ 32).
    split; [apply Z.pow_nonneg; lia | apply Z.pow_lt_mono_r; lia]. }
  rewrite E, land_pow2_eqb by lia. apply negb_involutive.
Qed.

Lemma narrow_in_int32 ty v :
  width ty = 8 \/ width ty = 16 -> in_range ty v -> in_range int32 v.
Proof.
  intros Hw Hv. apply in_range_int32.
  unfold in_range, min_val, max_val, modulus, half_modulus in Hv.
  destruct Hw as [Hw | Hw]; rewrite Hw in Hv;
    destruct (is_signed ty); cbn in Hv; lia.
Qed.

(** For the 8-, 16- and 32-bit types the test of [bfind] reads bit [i] of
    the value. *)
Lemma bfind_test_narrow ty v i :
  width ty = 8 \/ width ty = 16 \/ width ty = 32 ->
  in_range ty v -> 0 <= i < width ty ->
  bfind_test shl_oob ty v i = Z.testbit v i.
Proof.
  intros Hw Hv Hi. unfold bfind_test.
  destruct ty as [w s]. cbn [width] in *.
  destruct Hw as [-> | [-> | ->]].
  - change (common (IType 8 s) int32) with int32.
    apply bfind_test_int; [| lia].
    apply (narrow_in_int32 (IType 8 s)); auto.
  - change (common (IType 16 s) int32) with int32.
    apply bfind_test_int; [| lia].
    apply (narrow_in_int32 (IType 16 s)); auto.
  - destruct s.
    + change (common (IType 32 true) int32) with int32.
      apply bfind_test_int; [exact Hv | lia].
    + change (common (IType 32 false) int32) with uint32.
      apply bfind_test_uint; [exact Hv | lia].
Qed.

Lemma bfind_loop_narrow ty v d :
  width ty = 8 \/ width ty = 16 \/ width ty = 32 ->
  in_range ty v ->
  forall n, Z.of_nat n <= width ty ->
  bfind_loop shl_oob ty v n d
  = if v mod 2 ^ Z.of_nat n =? 0 then d else Z.log2 (v mod 2 ^ Z.of_nat n).
Proof.
  intros Hw Hv. induction n as [| i IH]; intros Hn.
  - cbn [bfind_loop Z.of_nat]. rewrite Z.pow_0_r, Z.mod_1_r. reflexivity.
  - cbn [bfind_loop]. rewrite bfind_test_narrow by (trivial; lia).
    rewrite Nat2Z.inj_succ. unfold Z.succ.
    rewrite mod_pow2_succ by lia.
    assert (Hp : 0 < 2 ^ Z.of_nat i) by (apply Z.pow_pos_nonneg; lia).
    pose proof (Z.mod_pos_bound v (2 ^ Z.of_nat i) Hp) as Hr.
    destruct (Z.testbit v (Z.of_nat i)).
    + destruct (Z.eqb_spec (v mod 2 ^ Z.of_nat i + 2 ^ Z.of_nat i) 0); [lia |].
      rewrite wrap_uint32_small by lia.
      symmetry. apply Z.log2_unique; [lia |].
      unfold Z.succ. rewrite Z.pow_add_r by lia. lia.
    + rewrite Z.add_0_r. apply IH. lia.
Qed.

(** On the 8-, 16- and 32-bit types [bfind] returns the index of the
    topmost set bit, or its distance to the top when [shiftAmount] is
    set, and the all-ones sentinel for 0. *)
Lemma bfind_narrow_spec ty v :
  width ty = 8 \/ width ty = 16 \/ width ty = 32 ->
  in_range ty v ->
  (v <> 0 ->
   bfind shl_oob ty v false = Z.log2 (pattern ty v) /\
   bfind shl_oob ty v true = width ty - 1 - Z.log2 (pattern ty v)) /\
  (v = 0 -> forall flag, bfind shl_oob ty v flag = 2 ^ 32 - 1).
Proof.
  intros Hw Hv. assert (Hw0 : 0 < width ty <= 32) by lia.
  assert (Hloop : bfind_loop shl_oob ty v (Z.to_nat (width ty - 1 + 1))
                    (wrap uint32 (-1))
                  = if pattern ty v =? 0 then wrap uint32 (-1)
                    else Z.log2 (pattern ty v)).
  { rewrite bfind_loop_narrow by (trivial; lia).
    rewrite Z2Nat.id by lia.
    replace (width ty - 1 + 1) with (width ty) by lia. reflexivity. }
  unfold bfind. rewrite Hloop. split.
  - intros Hn. pose proof (pattern_nonzero ty v ltac:(lia) Hv Hn) as Hp.
    pose proof (pattern_range ty v ltac:(lia)) as Hu.
    destruct (Z.eqb_spec (pattern ty v) 0); [contradiction |].
    assert (Hl0 : 0 <= Z.log2 (pattern ty v)) by apply Z.log2_nonneg.
    assert (Hl : Z.log2 (pattern ty v) < width ty)
      by (apply Z.log2_lt_pow2; [lia | apply Hu]).
    split; [reflexivity |].
    change (wrap uint32 (-1)) with 4294967295.
    destruct (Z.eqb_spec (Z.log2 (pattern ty v)) 4294967295); [lia |].
    cbn [negb]. apply wrap_uint32_small. lia.
  - intros -> flag. rewrite pattern_eq, Z.mod_0_l by (unfold modulus; lia).
    cbn. destruct flag; reflexivity.
Qed.

(** On a 64-bit operand the [int] mask is sign-extended, so its bits 32
    and 33 are equal: the test cannot tell [2 ^ 32] from [2 ^ 33]. *)
Lemma bfind_test_64_high i :
  bfind_test shl_oob uint64 (2 ^ 32) i = bfind_test shl_oob uint64 (2 ^ 33) i.
Proof.
  unfold bfind_test. change (common uint64 int32) with uint64.
  change (wrap uint64 (2 ^ 32)) with (2 ^ 32).
  change (wrap uint64 (2 ^ 33)) with (2 ^ 33).
  rewrite !(Z.land_comm (2 ^ _)), !land_pow2_eqb by lia.
  change (wrap uint64 (int_one_shl shl_oob i))
    with (int_one_shl shl_oob i mod 2 ^ 64).
  rewrite !Z.mod_pow2_bits_low by lia.
  rewrite !sign_bits by (try lia; apply int_one_shl_range).
  reflexivity.
Qed.

Lemma bfind_64_high_confused flag :
  bfind shl_oob uint64 (2 ^ 32) flag = bfind shl_oob uint64 (2 ^ 33) flag.
Proof.
  unfold bfind.
  assert (H : forall n d, bfind_loop shl_oob uint64 (2 ^ 32) n d
                          = bfind_loop shl_oob uint64 (2 ^ 33) n d).
  { induction n as [| i IH]; intros d; cbn [bfind_loop]; [reflexivity |].
    rewrite bfind_test_64_high, IH. reflexivity. }
  rewrite H. reflexivity.
Qed.

End BfindFacts.

(** C6 (the code departs from it): on a 64-bit type [bfind] does not return
    the index of the topmost set bit.  The mask [1 << i] is an [int]: for
    [i >= 32] the shift is out of range, and whatever it yields is
    sign-extended to 64 bits.  With the shift count taken modulo 32,
    [bfind] of [2 ^ 32] is 63 and not 32, and [bfind] of 1 is 32 and not 0;
    whatever the out-of-range shift yields, [2 ^ 32] and [2 ^ 33] get the
    same answer. *)
Theorem bfind_64bit_wrong_index :
  bfind shl_count_mod32 uint64 (2 ^ 32) false = 63 /\
  bfind shl_count_mod32 uint64 1 false = 32 /\
  bfind shl_count_mod32 uint64 1 true = 31 /\
  (forall shl_oob flag,
     bfind shl_oob uint64 (2 ^ 32) flag = bfind shl_oob uint64 (2 ^ 33) flag).
Proof.
  split; [vm_compute; reflexivity |].
  split; [vm_compute; reflexivity |].
  split; [vm_compute; reflexivity |].
  intros shl_oob flag. apply bfind_64_high_confused.
Qed.

(** ** countLeadingZeros and bfind together *)

(** C7, as stated, fails: with [shiftAmount] set, [bfind] is itself the
    number of leading zeros, so the sum counts them twice.  For the 32-bit
    value 1 it is [31 + 1 + 31 = 63], not 32. *)
Lemma countLeadingZeros_bfind_shift_sum :
  countLeadingZeros uint32 1 = 31 /\
  bfind shl_count_mod32 uint32 1 true = 31 /\
  countLeadingZeros uint32 1 + 1 + bfind shl_count_mod32 uint32 1 true
  <> width uint32.
Proof. repeat split. vm_compute. discriminate. Qed.

(** C7, amended: for every value [v <> 0] of an 8-, 16- or 32-bit type,
    [countLeadingZeros(v) + 1 + bfind(v, false) == W]; with [shiftAmount]
    set the two functions agree, [countLeadingZeros(v) == bfind(v, true)]. *)
Theorem countLeadingZeros_bfind_consistent shl_oob ty v :
  width ty = 8 \/ width ty = 16 \/ width ty = 32 ->
  in_range ty v -> v <> 0 ->
  countLeadingZeros ty v + 1 + bfind shl_oob ty v false = width ty /\
  countLeadingZeros ty v = bfind shl_oob ty v true.
Proof.
  intros Hw Hv Hn.
  destruct (bfind_narrow_spec shl_oob ty v Hw Hv) as [Hb _].
  destruct (Hb Hn) as [Hidx Hsh].
  rewrite Hidx, Hsh, countLeadingZeros_spec by (trivial; lia).
  pose proof (pattern_nonzero ty v ltac:(lia) Hv Hn) as Hp.
  destruct (Z.eqb_spec (pattern ty v) 0); [contradiction |].
  lia.
Qed.

Lemma countLeadingZeros_bfind_consistent_witness :
  countLeadingZeros int8 (-3) + 1 + bfind shl_count_mod32 int8 (-3) false
  = width int8 /\
  countLeadingZeros int8 (-3) = bfind shl_count_mod32 int8 (-3) true.
Proof.
  apply (countLeadingZeros_bfind_consistent shl_count_mod32 int8 (-3)).
  - left. reflexivity.
  - range_solve.
  - discriminate.
Defined.

(** ** bitInsert *)

(** C10: for every value, position and bit argument whose least-significant
    bit is 0, [bitInsert] returns the value unchanged: inserting a zero bit
    never clears a bit that is set. *)
Theorem bitInsert_zero_bit_unchanged ty v bit pos :
  0 < width ty -> in_range ty v -> Z.land bit 1 = 0 ->
  bitInsert ty v bit pos = v.
Proof.
  intros Hw Hv Hb. unfold bitInsert, band, shl, bnot, bor.
  rewrite Hb, (wrap_0 ty Hw), Z.shiftl_0_l, (wrap_0 ty Hw).
  change (Z.lnot 0) with (-1).
  assert (Hm : Z.land v (wrap ty (-1)) = v).
  { pose proof (modulus_double_half ty Hw) as Hm.
    pose proof (half_modulus_pos ty Hw) as Hh.
    unfold wrap. unfold in_range, min_val, max_val in Hv.
    destruct (is_signed ty).
    - rewrite Z.mod_small by lia.
      replace (-1 + half_modulus ty - half_modulus ty) with (-1) by lia.
      apply Z.land_m1_r.
    - replace ((-1) mod modulus ty) with (Z.ones (width ty)).
      + rewrite Z.land_ones by lia. apply Z.mod_small. unfold modulus in *. lia.
      + rewrite Z.ones_equiv. unfold modulus.
        apply Z.mod_unique with (q := -1); lia. }
  rewrite Hm, (wrap_in_range ty v Hw Hv), Z.lor_0_r.
  apply wrap_in_range; trivial.
Qed.

Lemma bitInsert_zero_bit_unchanged_witness :
  bitInsert uint8 255 2 3 = 255.
Proof.
  apply (bitInsert_zero_bit_unchanged uint8 255 2 3).
  - range_solve.
  - range_solve.
  - reflexivity.
Defined.

(** The mask is the complement of the very bit that is or-ed in next, so
    clearing with it has no effect: [bitInsert] only ever sets a bit. *)
Lemma bitInsert_is_or ty v bit pos :
  0 < width ty ->
  bitInsert ty v bit pos = bor ty v (shl ty (band ty bit 1) pos).
Proof.
  intros Hw. unfold bitInsert.
  set (b := shl ty (band ty bit 1) pos).
  unfold bor, band, bnot. apply wrap_eq_bits; trivial.
  intros i Hi.
  rewrite !Z.lor_spec, testbit_wrap, Z.land_spec, testbit_wrap by lia.
  rewrite Z.lnot_spec by lia.
  destruct (Z.testbit v i), (Z.testbit b i); reflexivity.
Qed.

(** C2 (the code departs from it): the bit at [position] is not replaced by
    [bit & 1] when that is 0.  The mask is the complement of the shifted
    bit, not of [1 << position], so a set bit survives the insertion of a
    zero: [bitInsert<uint8_t>(1, 0, 0)] is 1, bit 0 still set. *)
Theorem bitInsert_zero_does_not_clear :
  bitInsert uint8 1 0 0 = 1 /\
  Z.testbit (bitInsert uint8 1 0 0) 0 = true /\
  bitInsert int32 (-1) 0 31 = -1.
Proof. repeat split; reflexivity. Qed.

(** ** brev *)

(** [bitExtract] leaves the bit where it was: above position 0 its result
    has no least-significant bit. *)
Lemma bitExtract_high_lsb ty v p :
  0 < width ty -> 1 <= p -> Z.land (bitExtract ty v p) 1 = 0.
Proof.
  intros Hw Hp. unfold bitExtract, shl.
  rewrite land_1_wrap by trivial. apply land_1_shifted, Hp.
Qed.

(** Inserting a bit argument without least-significant bit into 0 gives 0. *)
Lemma bitInsert_into_zero ty bit pos :
  0 < width ty -> Z.land bit 1 = 0 -> bitInsert ty 0 bit pos = 0.
Proof.
  intros Hw Hb. unfold bitInsert, band, shl, bor.
  rewrite Hb, Z.land_0_l, !(wrap_0 ty Hw), Z.shiftl_0_l, (wrap_0 ty Hw).
  rewrite Z.lor_0_l. apply wrap_0, Hw.
Qed.

Lemma brev_loop_zero ty v msb :
  0 < width ty ->
  forall n i, i + Z.of_nat n <= msb -> brev_loop ty v msb n i 0 = 0.
Proof.
  intros Hw. induction n as [| n IH]; intros i Hi; [reflexivity |].
  cbn [brev_loop].
  rewrite bitInsert_into_zero;
    [apply IH; lia | trivial | apply bitExtract_high_lsb; trivial; lia].
Qed.

Lemma brev_loop_app ty v msb n m :
  forall i r,
    brev_loop ty v msb (n + m) i r
    = brev_loop ty v msb m (i + Z.of_nat n) (brev_loop ty v msb n i r).
Proof.
  induction n as [| n IH]; intros i r.
  - cbn [brev_loop Nat.add Z.of_nat]. rewrite Z.add_0_r. reflexivity.
  - cbn [brev_loop Nat.add]. rewrite IH. f_equal. lia.
Qed.

(** All that [brev] does is move bit 0 of the operand to the top. *)
Lemma brev_moves_bit0 ty v :
  2 <= width ty -> brev ty v = shl ty (Z.land v 1) (width ty - 1).
Proof.
  intros Hw. assert (Hw0 : 0 < width ty) by lia. unfold brev.
  replace (Z.to_nat (width ty - 1 + 1))
    with (Z.to_nat (width ty - 1) + 1)%nat by lia.
  rewrite brev_loop_app, brev_loop_zero by (trivial; lia).
  cbn [brev_loop]. rewrite Z.add_0_l, Z2Nat.id, Z.sub_diag by lia.
  assert (Hbit : in_range ty (Z.land v 1)).
  { change 1 with (Z.ones 1). rewrite Z.land_ones by lia.
    change (2 ^ 1) with 2. pose proof (Z.mod_pos_bound v 2 ltac:(lia)).
    assert (2 <= half_modulus ty).
    { unfold half_modulus. change 2 with (2 ^ 1) at 1.
      apply Z.pow_le_mono_r; lia. }
    pose proof (modulus_double_half ty Hw0).
    unfold in_range, min_val, max_val. destruct (is_signed ty); lia. }
  assert (Hex : bitExtract ty v 0 = Z.land v 1).
  { unfold bitExtract, shr, band, shl.
    rewrite Z.shiftr_0_r, Z.shiftl_0_r, land_1_wrap by trivial.
    rewrite !(wrap_in_range ty (Z.land v 1)) by trivial. reflexivity. }
  rewrite Hex. unfold bitInsert, band, bor.
  rewrite Z.land_0_l, (wrap_0 ty Hw0), Z.lor_0_l.
  replace (Z.land (Z.land v 1) 1) with (Z.land v 1)
    by (rewrite <- Z.land_assoc; reflexivity).
  rewrite (wrap_in_range ty (Z.land v 1)) by trivial.
  unfold shl. apply wrap_in_range; [trivial | apply wrap_range; trivial].
Qed.

(** So reversing twice yields 0 whatever the operand is. *)
Lemma brev_brev_zero ty v : 2 <= width ty -> brev ty (brev ty v) = 0.
Proof.
  intros Hw. assert (Hw0 : 0 < width ty) by lia.
  rewrite (brev_moves_bit0 ty (brev ty v)) by trivial.
  rewrite (brev_moves_bit0 ty v) by trivial.
  unfold shl at 2. rewrite land_1_wrap, land_1_shifted by (trivial; lia).
  unfold shl. rewrite Z.shiftl_0_l. apply wrap_0, Hw0.
Qed.

(** C3 (the code departs from it): [brev (brev v)] is not [v].  [bitExtract]
    leaves the extracted bit at its position and [bitInsert] keeps only the
    least-significant bit of its [bit] argument, so [brev] moves bit 0 to
    the top and drops every other bit: on 8 bits [brev 1 = 0x80] and
    [brev 2 = 0], and a second [brev] yields 0 for every operand of every
    width. *)
Theorem brev_twice_not_identity :
  brev uint8 1 = 128 /\ brev uint8 2 = 0 /\ brev uint8 (brev uint8 2) = 0 /\
  (forall v, brev uint8 (brev uint8 v) = 0) /\
  (forall v, brev int16 (brev int16 v) = 0) /\
  (forall v, brev uint32 (brev uint32 v) = 0) /\
  (forall v, brev int64 (brev int64 v) = 0).
Proof.
  split; [reflexivity |]. split; [reflexivity |]. split; [reflexivity |].
  repeat split; intros v; apply brev_brev_zero; cbn; lia.
Qed.

(** ** multiplyHiLo *)

(** The operators on [unsigned int] operands that are in range. *)
Lemma shr_uint32 x n :
  0 <= x < 2 ^ 32 -> 0 <= n -> shr uint32 x n = x / 2 ^ n.
Proof.
  intros Hx Hn. unfold shr.
  pose proof (shiftr_bound 32 x n Hn Hx) as Hb.
  rewrite Z.shiftr_div_pow2 in * by lia.
  apply wrap_uint32_small, Hb.
Qed.

Lemma band_ones_uint32 x k :
  0 <= x < 2 ^ 32 -> 0 <= k -> band uint32 x (Z.ones k) = x mod 2 ^ k.
Proof.
  intros Hx Hk. unfold band. rewrite Z.land_ones by lia.
  apply wrap_uint32_small.
  assert (Hp : 0 < 2 ^ k) by (apply Z.pow_pos_nonneg; lia).
  pose proof (Z.mod_pos_bound x (2 ^ k) Hp).
  pose proof (Z.mod_le x (2 ^ k) ltac:(lia) Hp). lia.
Qed.

Lemma bnot_uint32 x : 0 <= x < 2 ^ 32 -> bnot uint32 x = 2 ^ 32 - 1 - x.
Proof.
  intros Hx. unfold bnot. change (wrap uint32 (Z.lnot x)) with (Z.lnot x mod 2 ^ 32).
  symmetry. apply Z.mod_unique with (q := -1); unfold Z.lnot; lia.
Qed.

(** The operand after [r = ( rSigned ) ? -r : r], converted to [utype], is
    the absolute value; [INT_MIN] included, whose negation wraps around to
    itself. *)
Lemma multiplyHiLo_operand ty r :
  width ty = 32 -> in_range ty r ->
  isNegative ty r = (r <? 0) /\
  wrap uint32 (if isNegative ty r then neg ty r else r) = Z.abs r /\
  0 <= Z.abs r < 2 ^ 32.
Proof.
  intros Hw Hr. assert (Hw0 : 0 < width ty) by lia.
  assert (Hm : modulus ty = 2 ^ 32) by (unfold modulus; rewrite Hw; reflexivity).
  assert (Hh : half_modulus ty = 2 ^ 31)
    by (unfold half_modulus; rewrite Hw; reflexivity).
  assert (Hb : - 2 ^ 31 <= r < 2 ^ 32 /\ (is_signed ty = false -> 0 <= r)).
  { unfold in_range, min_val, max_val in Hr. rewrite Hm, Hh in Hr.
    destruct (is_signed ty); split; try lia; discriminate. }
  destruct Hb as [Hb Hu].
  assert (Hneg : isNegative ty r = (r <? 0)).
  { unfold isNegative. destruct (is_signed ty); [reflexivity |].
    cbn [andb]. symmetry. apply Z.ltb_ge. auto. }
  split; [exact Hneg |]. rewrite Hneg.
  destruct (Z.ltb_spec r 0) as [Hlt | Hge].
  - split; [| lia].
    unfold neg.
    change (wrap uint32 (wrap ty (- r))) with (wrap ty (- r) mod 2 ^ 32).
    rewrite <- Hm, wrap_mod, Hm by trivial.
    rewrite Z.mod_small by lia. lia.
  - split; [| lia].
    change (wrap uint32 r) with (r mod 2 ^ 32).
    rewrite Z.mod_small by lia. lia.
Qed.

Lemma pattern_32 ty z : width ty = 32 -> pattern ty z = z mod 2 ^ 32.
Proof. intros Hw. rewrite pattern_eq. unfold modulus. rewrite Hw. reflexivity. Qed.

Lemma wrap_uint32_wrap ty z :
  width ty = 32 -> wrap uint32 (wrap ty z) = z mod 2 ^ 32.
Proof.
  intros Hw. change (wrap uint32 (wrap ty z)) with (wrap ty z mod 2 ^ 32).
  replace (2 ^ 32) with (modulus ty)
    by (unfold modulus; rewrite Hw; reflexivity).
  apply wrap_mod. lia.
Qed.

(** The three places where [multiplyHiLo] computes a carry. *)
Lemma carry_of_sum p q :
  0 <= p < 2 ^ 32 -> 0 <= q < 2 ^ 32 ->
  shr uint32
    (add uint32 (add uint32 (shr uint32 p 31) (shr uint32 q 31))
       (shr uint32
          (add uint32 (band uint32 p (Z.ones 31)) (band uint32 q (Z.ones 31)))
          31)) 1
  = (p + q) / 2 ^ 32.
Proof.
  intros Hp Hq. change (2 ^ 32) with 4294967296 in *. uint32_arith.
Qed.

Lemma carry_of_sum_low p q :
  0 <= p < 2 ^ 32 -> 0 <= q < 2 ^ 31 ->
  shr uint32
    (add uint32
       (shr uint32 (add uint32 (band uint32 p (Z.ones 31)) q) 31)
       (shr uint32 p 31)) 1
  = (p + q) / 2 ^ 32.
Proof.
  intros Hp Hq. change (2 ^ 32) with 4294967296 in *.
  change (2 ^ 31) with 2147483648 in *. uint32_arith.
Qed.

Lemma carry_of_increment n :
  0 <= n < 2 ^ 32 ->
  shr uint32
    (add uint32 (shr uint32 n 31)
       (shr uint32 (add uint32 (band uint32 n (Z.ones 31)) 1) 31)) 1
  = (n + 1) / 2 ^ 32.
Proof.
  intros Hn. change (2 ^ 32) with 4294967296 in *. uint32_arith.
Qed.

Lemma wrap_mod_32 ty z :
  width ty = 32 -> wrap ty z mod 4294967296 = z mod 4294967296.
Proof.
  intros Hw. change 4294967296 with (2 ^ 32).
  rewrite <- !(pattern_32 ty) by trivial. apply pattern_wrap. lia.
Qed.

(** The two words of the result, read as unsigned numbers, make up the
    product modulo [2 ^ 64].  The statement is in continuation form so that
    the [let]s of the definition can be named one after the other. *)
Lemma multiplyHiLo_32 ty r0 r1 (P : Z * Z -> Prop) :
  width ty = 32 ->
  in_range ty r0 -> in_range ty r1 ->
  (forall hi lo, in_range ty hi -> in_range ty lo ->
     pattern ty hi * 2 ^ 32 + pattern ty lo = (r0 * r1) mod 2 ^ 64 -> P (hi, lo)) ->
  P (multiplyHiLo ty r0 r1).
Proof.
  intros Hw Hr0 Hr1 HP.
  destruct (multiplyHiLo_operand ty r0 Hw Hr0) as (Hn0 & HA & HAr).
  destruct (multiplyHiLo_operand ty r1 Hw Hr1) as (Hn1 & HB & HBr).
  destruct ty as [w s]. cbn [width] in Hw. subst w.
  set (ty := IType 32 s) in *.
  cbv delta [multiplyHiLo]. cbv beta.
  repeat pull_let.
  assert (Hw : width ty = 32) by reflexivity.
  change utype with uint32 in *. clear utype.
  assert (Hbits : bits = 16) by reflexivity.
  assert (Hmask : mask = Z.ones 16) by (subst mask ty; destruct s; reflexivity).
  assert (HtotalBits : totalBits = 31) by reflexivity.
  assert (HupperMask : upperMask = Z.ones 31)
    by (subst upperMask ty; destruct s; reflexivity).
  clearbody bits mask totalBits upperMask. subst bits mask totalBits upperMask.
  fold r0Signed in HA. fold r2 in HA. fold r1Signed in HB. fold r3 in HB.
  fold r0Signed in Hn0. fold r1Signed in Hn1.
  assert (Hsign : r0 * r1 = if negative then - (Z.abs r0 * Z.abs r1)
                            else Z.abs r0 * Z.abs r1).
  { subst negative. rewrite Hn0, Hn1.
    destruct (Z.ltb_spec r0 0), (Z.ltb_spec r1 0); cbn [andb orb negb]; lia. }
  clearbody negative.
  set (A := Z.abs r0) in *. set (B := Z.abs r1) in *. clearbody A B.
  assert (Ha : a = A / 2 ^ 16) by (subst a; rewrite HA; apply shr_uint32; lia).
  assert (Hb : b = A mod 2 ^ 16) by (subst b; rewrite HA; apply band_ones_uint32; lia).
  assert (Hc : c = B / 2 ^ 16) by (subst c; rewrite HB; apply shr_uint32; lia).
  assert (Hd : d = B mod 2 ^ 16) by (subst d; rewrite HB; apply band_ones_uint32; lia).
  clearbody a b c d. clear HA HB Hn0 Hn1 r0Signed r1Signed r2 r3.
  change (2 ^ 16) with 65536 in *. change (2 ^ 32) with 4294967296 in *.
  assert (Hab : A = 65536 * a + b /\ 0 <= a < 65536 /\ 0 <= b < 65536).
  { subst a b. Z.div_mod_to_equations. lia. }
  assert (Hcd : B = 65536 * c + d /\ 0 <= c < 65536 /\ 0 <= d < 65536).
  { subst c d. Z.div_mod_to_equations. lia. }
  clear Ha Hb Hc Hd.
  assert (Hprod : forall p q, 0 <= p < 65536 -> 0 <= q < 65536 ->
                  mul uint32 p q = p * q /\ 0 <= p * q < 4294967296).
  { intros p q Hp Hq. assert (0 <= p * q < 4294967296) by nia.
    split; trivial. unfold mul. apply wrap_uint32_small. trivial. }
  destruct (Hprod d a) as [Hda Hdar]; try lia.
  destruct (Hprod d b) as [Hdb Hdbr]; try lia.
  destruct (Hprod c a) as [Hca Hcar]; try lia.
  destruct (Hprod c b) as [Hcb Hcbr]; try lia.
  fold da in Hda. fold db in Hdb. fold ca in Hca. fold cb in Hcb.
  rewrite <- Hda in Hdar. rewrite <- Hdb in Hdbr.
  rewrite <- Hca in Hcar. rewrite <- Hcb in Hcbr.
  assert (HAB : A * B = 4294967296 * ca + 65536 * (da + cb) + db).
  { rewrite Hda, Hdb, Hca, Hcb. destruct Hab as [-> _], Hcd as [-> _]. ring. }
  assert (HABr : 0 <= A * B < 4294967296 * 4294967296) by nia.
  clearbody da db ca cb. clear Hprod Hda Hdb Hca Hcb Hab Hcd a b c d.
  (* the middle column *)
  assert (HxCarryOut : xCarryOut = (da + cb) / 4294967296).
  { subst xCarryOut xCarryIn daUpper cbUpper. apply carry_of_sum; assumption. }
  assert (Hx : x = (da + cb) mod 4294967296) by reflexivity.
  assert (Hq : shr uint32 db 16 = db / 65536) by (apply shr_uint32; lia).
  assert (Hqr : 0 <= db / 65536 < 65536) by (Z.div_mod_to_equations; lia).
  assert (Hxr : 0 <= x < 4294967296) by (rewrite Hx; apply Z.mod_pos_bound; lia).
  assert (HyCarryOut : yCarryOut = (x + db / 65536) / 4294967296).
  { subst yCarryOut yCarryIn xUpper. rewrite Hq.
    apply carry_of_sum_low; [assumption | lia]. }
  assert (Hy : y = (db / 65536 + x) mod 4294967296) by (subst y; rewrite Hq; reflexivity).
  assert (Hyr : 0 <= y < 4294967296) by (rewrite Hy; apply Z.mod_pos_bound; lia).
  clearbody xCarryOut x yCarryOut y.
  clear xCarryIn daUpper cbUpper yCarryIn xUpper.
  set (Q := A * B) in *. clearbody Q. clear A B HAr HBr.
  (* the two result words *)
  assert (Hxc : 0 <= xCarryOut <= 1)
    by (rewrite HxCarryOut; Z.div_mod_to_equations; lia).
  assert (Hyc : 0 <= yCarryOut <= 1)
    by (rewrite HyCarryOut; Z.div_mod_to_equations; lia).
  assert (HloU : bor uint32 (band uint32 db (Z.ones 16))
                   (shl uint32 (band uint32 y (Z.ones 16)) 16)
                 = db mod 65536 + y mod 65536 * 65536).
  { assert (Hlo16 : 0 <= db mod 2 ^ 16 < 2 ^ 16)
      by (apply Z.mod_pos_bound; lia).
    assert (Hup16 : 0 <= y mod 2 ^ 16 * 2 ^ 16
                    /\ db mod 2 ^ 16 + y mod 2 ^ 16 * 2 ^ 16 < 4294967296).
    { change (2 ^ 16) with 65536 in *. Z.div_mod_to_equations. lia. }
    rewrite !band_ones_uint32 by lia.
    unfold bor, shl. rewrite Z.shiftl_mul_pow2 by lia.
    rewrite (wrap_uint32_small (y mod 2 ^ 16 * 2 ^ 16))
      by (change (2 ^ 32) with 4294967296; lia).
    rewrite lor_disjoint_add by lia.
    change (2 ^ 16) with 65536 in *.
    apply wrap_uint32_small. change (2 ^ 32) with 4294967296. lia. }
  assert (Hsplit : Q = 4294967296 * (y / 65536 + ca
                                       + (yCarryOut + xCarryOut) * 65536)
                       + (db mod 65536 + y mod 65536 * 65536)).
  { rewrite HAB, HyCarryOut, HxCarryOut, Hy, Hx. Z.div_mod_to_equations. lia. }
  assert (HhiU : add uint32 (add uint32 (shr uint32 y 16) ca)
                   (shl uint32 (add uint32 yCarryOut xCarryOut) 16)
                 = y / 65536 + ca + (yCarryOut + xCarryOut) * 65536).
  { rewrite shr_uint32 by lia. change (2 ^ 16) with 65536.
    assert (Hlow : 0 <= db mod 65536 + y mod 65536 * 65536)
      by (Z.div_mod_to_equations; lia).
    assert (Hyq : 0 <= y / 65536) by (Z.div_mod_to_equations; lia).
    rewrite (add_uint32_small yCarryOut) by lia.
    unfold shl. rewrite Z.shiftl_mul_pow2 by lia. change (2 ^ 16) with 65536.
    rewrite (wrap_uint32_small ((yCarryOut + xCarryOut) * 65536)) by lia.
    rewrite (add_uint32_small (y / 65536)) by lia.
    apply add_uint32_small. lia. }
  set (hiU := y / 65536 + ca + (yCarryOut + xCarryOut) * 65536) in *.
  set (loU := db mod 65536 + y mod 65536 * 65536) in *.
  assert (HloUr : 0 <= loU < 4294967296)
    by (subst loU; Z.div_mod_to_equations; lia).
  assert (HhiUr : 0 <= hiU < 4294967296).
  { assert (0 <= y / 65536) by (Z.div_mod_to_equations; lia).
    subst hiU. lia. }
  clearbody hiU loU.
  clear HAB HxCarryOut Hx Hq Hqr Hxr HyCarryOut Hy Hyr Hxc Hyc
        Hdar Hdbr Hcar Hcbr.
  assert (Hlo : lo = wrap ty loU) by (subst lo; rewrite HloU; reflexivity).
  assert (Hhi : hi = wrap ty hiU) by (subst hi; rewrite HhiU; reflexivity).
  clearbody lo hi. clear HloU HhiU xCarryOut yCarryOut da db ca cb x y.
  assert (Hplo : wrap uint32 lo = loU).
  { rewrite Hlo, wrap_uint32_wrap by trivial. apply Z.mod_small. exact HloUr. }
  assert (Hphi : wrap uint32 hi = hiU).
  { rewrite Hhi, wrap_uint32_wrap by trivial. apply Z.mod_small. exact HhiUr. }
  assert (Hsc : signCarryOut = (4294967296 - 1 - loU + 1) / 4294967296).
  { subst signCarryOut loUpperBit signCarryIn. rewrite Hplo.
    rewrite bnot_uint32 by exact HloUr.
    apply carry_of_increment. change (2 ^ 32) with 4294967296. lia. }
  clearbody signCarryOut. clear loUpperBit signCarryIn.
  apply HP.
  - subst hi'. destruct negative; [| rewrite Hhi]; apply wrap_range; lia.
  - subst lo'. destruct negative; [unfold neg | rewrite Hlo];
      apply wrap_range; lia.
  - rewrite !(pattern_32 ty) by trivial. change (2 ^ 32) with 4294967296.
    change (2 ^ 64) with 18446744073709551616.
    rewrite Hsign. subst hi' lo'. destruct negative.
    + rewrite Hphi, bnot_uint32 by exact HhiUr.
      change (2 ^ 32) with 4294967296.
      change (wrap uint32 lo) with (lo mod 4294967296) in Hplo.
      unfold neg. rewrite !(wrap_mod_32 ty) by trivial.
      replace (- lo) with (0 - lo) by lia.
      rewrite <- Zminus_mod_idemp_r, Hplo.
      unfold add. change (wrap uint32 ?z) with (z mod 4294967296).
      rewrite Hsc. Z.div_mod_to_equations. lia.
    + change (wrap uint32 hi * 4294967296 + wrap uint32 lo
              = Q mod 18446744073709551616).
      rewrite Hphi, Hplo, Z.mod_small; lia.
Qed.

Lemma product_in_double_range ty r0 r1 :
  width ty = 32 -> in_range ty r0 -> in_range ty r1 ->
  in_range (double ty) (r0 * r1).
Proof.
  intros Hw H0 H1. unfold in_range, min_val, max_val, modulus, half_modulus in *.
  unfold double. cbn [is_signed width]. rewrite Hw in *.
  change (2 ^ (2 * 32)) with 18446744073709551616.
  change (2 ^ (2 * 32 - 1)) with 9223372036854775808.
  change (2 ^ 32) with 4294967296 in *.
  change (2 ^ (32 - 1)) with 2147483648 in *.
  destruct (is_signed ty); nia.
Qed.

(** C1: for every pair of 32-bit operands, signed or unsigned,
    [multiplyHiLo] yields two words of the type whose concatenation, read
    as a 64-bit value of the same signedness, is the exact product
    [r0 * r1]; for the signed operands [r0 = INT32_MIN] and [r1 = -1] the
    words are [hi = 0x00000000] and [lo = 0x80000000]. *)
Theorem multiplyHiLo_exact ty r0 r1 :
  width ty = 32 -> in_range ty r0 -> in_range ty r1 ->
  (in_range ty (fst (multiplyHiLo ty r0 r1)) /\
   in_range ty (snd (multiplyHiLo ty r0 r1)) /\
   hilo ty (fst (multiplyHiLo ty r0 r1)) (snd (multiplyHiLo ty r0 r1))
   = r0 * r1) /\
  pattern int32 (fst (multiplyHiLo int32 (- 2 ^ 31) (-1))) = 0 /\
  pattern int32 (snd (multiplyHiLo int32 (- 2 ^ 31) (-1))) = 2147483648.
Proof.
  intros Hw H0 H1. split; [| split; reflexivity].
  apply (multiplyHiLo_32 ty r0 r1
           (fun p => in_range ty (fst p) /\ in_range ty (snd p) /\
                     hilo ty (fst p) (snd p) = r0 * r1)); trivial.
  intros hi lo Hhi Hlo Heq. cbn [fst snd].
  split; [exact Hhi |]. split; [exact Hlo |].
  unfold hilo.
  replace (modulus ty) with (2 ^ 32) by (unfold modulus; rewrite Hw; reflexivity).
  rewrite Heq.
  replace (2 ^ 64) with (modulus (double ty))
    by (unfold modulus, double; cbn [width]; rewrite Hw; reflexivity).
  assert (Hdw : 0 < width (double ty)) by (unfold double; cbn [width]; lia).
  rewrite wrap_mod_arg by exact Hdw.
  apply wrap_in_range; [exact Hdw |].
  apply product_in_double_range; trivial.
Qed.

Lemma multiplyHiLo_exact_witness :
  (in_range int32 (fst (multiplyHiLo int32 (-7) 3)) /\
   in_range int32 (snd (multiplyHiLo int32 (-7) 3)) /\
   hilo int32 (fst (multiplyHiLo int32 (-7) 3)) (snd (multiplyHiLo int32 (-7) 3))
   = -7 * 3) /\
  pattern int32 (fst (multiplyHiLo int32 (- 2 ^ 31) (-1))) = 0 /\
  pattern int32 (snd (multiplyHiLo int32 (- 2 ^ 31) (-1))) = 2147483648.
Proof.
  apply (multiplyHiLo_exact int32 (-7) 3).
  - reflexivity.
  - range_solve.
  - range_solve.
Defined.

(** ** addHiLo *)

(** C5, as stated, fails.  [r0] is converted to the unsigned type before it
    is added, so a negative [r0] adds [2 ^ 32 + r0]: from the pair (0, 5),
    adding -1 gives (1, 4), which is [2 ^ 32 + 4] and not 4, also modulo
    [2 ^ 64].  And the carry out of [hi] is dropped: on unsigned operands
    (0xFFFFFFFF, 0xFFFFFFFF) plus 1 is (0, 0). *)
Lemma addHiLo_not_exact :
  addHiLo int32 0 5 (-1) = (1, 4) /\
  hilo int32 1 4 <> hilo int32 0 5 + -1 /\
  hilo int32 1 4 <> wrap (double int32) (hilo int32 0 5 + -1) /\
  addHiLo uint32 4294967295 4294967295 1 = (0, 0) /\
  hilo uint32 0 0 <> hilo uint32 4294967295 4294967295 + 1.
Proof. repeat split; vm_compute; discriminate. Qed.

Lemma addHiLo_carry_flag m pl pr :
  0 < m -> 0 <= pl < m -> 0 <= pr < m ->
  (if ((pr + pl) mod m <? pr) || ((pr + pl) mod m <? pl) then 1 else 0)
  = (pl + pr) / m.
Proof.
  intros Hm Hl Hr.
  assert (Hc : pr + pl < m \/ m <= pr + pl) by lia.
  destruct Hc as [Hc | Hc].
  - rewrite Z.mod_small by lia.
    rewrite Z.div_small by lia.
    destruct (Z.ltb_spec (pr + pl) pr); [lia |].
    destruct (Z.ltb_spec (pr + pl) pl); [lia | reflexivity].
  - assert (Hq : (pl + pr) / m = 1).
    { symmetry. apply Z.div_unique with (r := pl + pr - m); lia. }
    assert (Hmod : (pr + pl) mod m = pr + pl - m).
    { symmetry. apply Z.mod_unique with (q := 1); lia. }
    rewrite Hq, Hmod.
    destruct (Z.ltb_spec (pr + pl - m) pr); [reflexivity | lia].
Qed.

(** C5, amended: [addHiLo] adds the bit pattern of [r0], read as an unsigned
    number, into [lo] and propagates a 0/1 carry into [hi] only; the output
    pair, its two bit patterns concatenated, is the input pair plus that
    unsigned [r0] modulo [2 ^ (2 W)].  The sum is exact when [r0] is not
    negative and the carry does not leave [hi]; on 32-bit unsigned operands
    [addHiLo(hi=0, lo=0xFFFFFFFF, r0=1)] is [(hi=1, lo=0)]. *)
Theorem addHiLo_spec ty hi lo r0 :
  0 < width ty -> in_range ty hi -> in_range ty lo -> in_range ty r0 ->
  let hi' := fst (addHiLo ty hi lo r0) in
  let lo' := snd (addHiLo ty hi lo r0) in
  let carry := (pattern ty lo + pattern ty r0) / modulus ty in
  in_range ty hi' /\ in_range ty lo' /\
  (carry = 0 \/ carry = 1) /\
  pattern ty lo' = (pattern ty lo + pattern ty r0) mod modulus ty /\
  pattern ty hi' = (pattern ty hi + carry) mod modulus ty /\
  pattern ty hi' * modulus ty + pattern ty lo'
  = (pattern ty hi * modulus ty + pattern ty lo + pattern ty r0)
      mod (modulus ty * modulus ty) /\
  (0 <= r0 -> pattern ty hi + carry < modulus ty ->
   pattern ty hi' * modulus ty + pattern ty lo'
   = pattern ty hi * modulus ty + pattern ty lo + r0) /\
  addHiLo uint32 0 4294967295 1 = (1, 0).
Proof.
  intros Hw Hhi Hlo Hr0 hi' lo' carry.
  pose proof (modulus_pos ty Hw) as Hm.
  pose proof (pattern_range ty hi Hw) as Hph.
  pose proof (pattern_range ty lo Hw) as Hpl.
  pose proof (pattern_range ty r0 Hw) as Hpr.
  assert (Hlo' : pattern ty lo' = (pattern ty lo + pattern ty r0) mod modulus ty).
  { subst lo'. unfold addHiLo. cbn [snd]. rewrite pattern_wrap by trivial.
    unfold add. rewrite !wrap_unsigned, Zmod_mod, !pattern_eq.
    f_equal. lia. }
  assert (Hhi' : pattern ty hi' = (pattern ty hi + carry) mod modulus ty).
  { subst hi' carry. unfold addHiLo. cbn [fst]. rewrite pattern_wrap by trivial.
    unfold add. rewrite !wrap_unsigned, Zmod_mod.
    rewrite !pattern_eq in *.
    rewrite addHiLo_carry_flag by lia. reflexivity. }
  assert (Hc : carry = 0 \/ carry = 1).
  { subst carry.
    assert (H1 : 0 <= (pattern ty lo + pattern ty r0) / modulus ty)
      by (apply Z.div_pos; lia).
    assert (H2 : (pattern ty lo + pattern ty r0) / modulus ty < 2)
      by (apply Z.div_lt_upper_bound; lia).
    lia. }
  assert (Hsplit : pattern ty lo + pattern ty r0
                   = modulus ty * carry
                     + (pattern ty lo + pattern ty r0) mod modulus ty)
    by (subst carry; apply Z.div_mod; lia).
  pose proof (Z.mod_pos_bound (pattern ty lo + pattern ty r0) (modulus ty) Hm)
    as Hrem.
  split; [apply wrap_range; trivial |].
  split; [apply wrap_range; trivial |].
  split; [exact Hc |].
  split; [exact Hlo' |].
  split; [exact Hhi' |].
  split; [| split; [| reflexivity]].
  - rewrite Hhi', Hlo'.
    set (r := (pattern ty lo + pattern ty r0) mod modulus ty) in *.
    replace (pattern ty hi * modulus ty + pattern ty lo + pattern ty r0)
      with ((pattern ty hi + carry) * modulus ty + r) by lia.
    rewrite Z.rem_mul_r by lia.
    rewrite Z.div_add_l by lia.
    rewrite (Z.div_small r) by lia.
    rewrite Z.add_0_r.
    rewrite (Z.add_comm ((pattern ty hi + carry) * modulus ty) r).
    rewrite Z_mod_plus_full, (Z.mod_small r) by lia.
    lia.
  - intros Hnn Hfit. rewrite Hhi', Hlo'.
    rewrite (Z.mod_small (pattern ty hi + carry)) by lia.
    assert (Hpr0 : pattern ty r0 = r0).
    { rewrite pattern_eq. apply Z.mod_small.
      pose proof (modulus_double_half ty Hw). pose proof (half_modulus_pos ty Hw).
      unfold in_range, min_val, max_val in Hr0. destruct (is_signed ty); lia. }
    lia.
Qed.

Lemma addHiLo_spec_witness :
  let hi' := fst (addHiLo int32 7 (-1) 1) in
  let lo' := snd (addHiLo int32 7 (-1) 1) in
  let carry := (pattern int32 (-1) + pattern int32 1) / modulus int32 in
  in_range int32 hi' /\ in_range int32 lo' /\
  (carry = 0 \/ carry = 1) /\
  pattern int32 lo' = (pattern int32 (-1) + pattern int32 1) mod modulus int32 /\
  pattern int32 hi' = (pattern int32 7 + carry) mod modulus int32 /\
  pattern int32 hi' * modulus int32 + pattern int32 lo'
  = (pattern int32 7 * modulus int32 + pattern int32 (-1) + pattern int32 1)
      mod (modulus int32 * modulus int32) /\
  (0 <= 1 -> pattern int32 7 + carry < modulus int32 ->
   pattern int32 hi' * modulus int32 + pattern int32 lo'
   = pattern int32 7 * modulus int32 + pattern int32 (-1) + 1) /\
  addHiLo uint32 0 4294967295 1 = (1, 0).
Proof.
  apply (addHiLo_spec int32 7 (-1) 1); range_solve.
Defined.


(** * Further properties of math.h *)

(** ** isPowerOfTwo *)

(** On [unsigned int], [isPowerOfTwo] accepts 0 and the powers of two, and
    nothing else. *)
Theorem isPowerOfTwo_unsigned_iff v :
  0 <= v < 2 ^ 32 ->
  (isPowerOfTwo uint32 v = true <->
   v = 0 \/ exists k, 0 <= k <= 31 /\ v = 2 ^ k).
Proof.
  intros Hv. split.
  - intros Hp. destruct (Z.eq_dec v 0) as [-> | Hn]; [left; reflexivity |].
    right. exists (Z.log2 v). split.
    + split; [apply Z.log2_nonneg |].
      assert (Z.log2 v < 32) by (apply Z.log2_lt_pow2; lia). lia.
    + apply isPowerOfTwo_inv; [lia | exact Hp].
  - intros [-> | [k [Hk ->]]]; [reflexivity | apply isPowerOfTwo_pow2, Hk].
Qed.

Lemma isPowerOfTwo_unsigned_iff_witness :
  isPowerOfTwo uint32 4096 = true <->
  4096 = 0 \/ exists k, 0 <= k <= 31 /\ 4096 = 2 ^ k.
Proof. apply (isPowerOfTwo_unsigned_iff 4096). cbn. lia. Defined.

Lemma pattern_inj ty x y :
  0 < width ty -> in_range ty x -> in_range ty y ->
  pattern ty x = pattern ty y -> x = y.
Proof.
  intros Hw Hx Hy E.
  rewrite <- (wrap_in_range ty x Hw Hx), <- (wrap_in_range ty y Hw Hy).
  rewrite <- (wrap_mod_arg ty x), <- (wrap_mod_arg ty y) by trivial.
  rewrite <- !pattern_eq, E. reflexivity.
Qed.

Lemma land_mod_pow2 a b n :
  0 <= n -> Z.land a b mod 2 ^ n = Z.land (a mod 2 ^ n) (b mod 2 ^ n).
Proof.
  intros Hn. rewrite <- !Z.land_ones by lia.
  apply Z.bits_inj'. intros i Hi. rewrite !Z.land_spec.
  destruct (Z.testbit a i), (Z.testbit b i), (Z.testbit (Z.ones n) i);
    reflexivity.
Qed.

(** The [int] overload looks at the same bits as the [unsigned int] one. *)
Lemma isPowerOfTwo_signed_pattern v :
  in_range int32 v ->
  isPowerOfTwo int32 v = isPowerOfTwo uint32 (pattern int32 v).
Proof.
  intros Hv. assert (Hw : 0 < width int32) by (cbn; lia).
  unfold isPowerOfTwo.
  rewrite isPowerOfTwo_negation.
  set (X := band int32 v (add int32 (bnot int32 v) 1)).
  assert (HX : in_range int32 X) by (apply wrap_range, Hw).
  assert (HpX : pattern int32 X
                = band uint32 (pattern int32 v) ((- pattern int32 v) mod 2 ^ 32)).
  { unfold X, band, add, bnot. rewrite pattern_wrap by trivial.
    change (modulus int32) with (2 ^ 32).
    change (wrap uint32 ?z) with (z mod 2 ^ 32).
    rewrite !land_mod_pow2 by lia. rewrite !Zmod_mod.
    change (wrap int32 (wrap int32 (Z.lnot v) + 1) mod 2 ^ 32)
      with (pattern int32 (wrap int32 (wrap int32 (Z.lnot v) + 1))).
    rewrite pattern_wrap by trivial. change (modulus int32) with (2 ^ 32).
    rewrite <- Zplus_mod_idemp_l.
    change (wrap int32 (Z.lnot v) mod 2 ^ 32)
      with (pattern int32 (wrap int32 (Z.lnot v))).
    rewrite pattern_wrap by trivial. change (modulus int32) with (2 ^ 32).
    rewrite Zplus_mod_idemp_l.
    replace (Z.lnot v + 1) with (- v) by (unfold Z.lnot; lia).
    rewrite pattern_eq. change (modulus int32) with (2 ^ 32).
    rewrite Zmod_mod. f_equal.
    replace (- v) with (0 - v) by lia.
    replace (- (v mod 2 ^ 32)) with (0 - v mod 2 ^ 32) by lia.
    rewrite Zminus_mod_idemp_r. reflexivity. }
  rewrite <- HpX.
  destruct (Z.eqb_spec X v) as [E | N].
  - rewrite E. symmetry. apply Z.eqb_refl.
  - symmetry. apply Z.eqb_neq. intros E. apply N.
    apply (pattern_inj int32); trivial.
Qed.

(** On [int], [isPowerOfTwo] accepts 0, the powers of two, and [INT_MIN],
    whose only set bit is the sign. *)
Theorem isPowerOfTwo_signed_iff v :
  in_range int32 v ->
  (isPowerOfTwo int32 v = true <->
   v = 0 \/ v = - 2 ^ 31 \/ exists k, 0 <= k <= 30 /\ v = 2 ^ k).
Proof.
  intros Hv. rewrite (isPowerOfTwo_signed_pattern v Hv).
  assert (Hr : - 2 ^ 31 <= v < 2 ^ 31) by (apply in_range_int32, Hv).
  assert (Hu : 0 <= pattern int32 v < 2 ^ 32)
    by (apply (pattern_range int32 v); cbn; lia).
  assert (Hiff : isPowerOfTwo uint32 (pattern int32 v) = true <->
                 pattern int32 v = 0 \/
                 exists k, 0 <= k <= 31 /\ pattern int32 v = 2 ^ k).
  { set (u := pattern int32 v) in *. split.
    - intros Hp. destruct (Z.eq_dec u 0) as [E | Hn]; [left; exact E |].
      right. exists (Z.log2 u).
      assert (Z.log2 u < 32) by (apply Z.log2_lt_pow2; lia).
      pose proof (Z.log2_nonneg u).
      split; [lia | apply isPowerOfTwo_inv; [lia | exact Hp]].
    - intros [E | [k [Hk E]]]; rewrite E;
        [reflexivity | apply isPowerOfTwo_pow2, Hk]. }
  rewrite Hiff. clear Hiff.
  assert (Hp : pattern int32 v = if v <? 0 then v + 2 ^ 32 else v).
  { rewrite pattern_eq. change (modulus int32) with (2 ^ 32).
    destruct (Z.ltb_spec v 0).
    - symmetry. apply Z.mod_unique with (q := -1); lia.
    - apply Z.mod_small. lia. }
  rewrite Hp. clear Hp Hu.
  assert (H31 : 2 ^ 31 = 2147483648) by reflexivity.
  assert (H32 : 2 ^ 32 = 4294967296) by reflexivity.
  split.
  - intros [E | [k [Hk E]]].
    + destruct (Z.ltb_spec v 0); [lia | left; exact E].
    + assert (Hpk : 0 < 2 ^ k) by (apply Z.pow_pos_nonneg; lia).
      destruct (Z.ltb_spec v 0) as [Hneg | Hpos].
      * right; left.
        destruct (Z.eq_dec k 31) as [-> | Hne]; [lia |].
        assert (2 ^ k <= 2 ^ 30) by (apply Z.pow_le_mono_r; lia).
        change (2 ^ 30) with 1073741824 in *. lia.
      * right; right. exists k. split; [| exact E].
        destruct (Z.eq_dec k 31) as [-> | Hne]; [lia | lia].
  - intros [-> | [-> | [k [Hk ->]]]].
    + left. reflexivity.
    + right. exists 31. split; [lia | reflexivity].
    + right. exists k. split; [lia |].
      assert (Hpk : 0 < 2 ^ k) by (apply Z.pow_pos_nonneg; lia).
      destruct (Z.ltb_spec (2 ^ k) 0); [lia | reflexivity].
Qed.

Lemma isPowerOfTwo_signed_iff_witness :
  isPowerOfTwo int32 (- 2 ^ 31) = true <->
  - 2 ^ 31 = 0 \/ - 2 ^ 31 = - 2 ^ 31 \/
  exists k, 0 <= k <= 30 /\ - 2 ^ 31 = 2 ^ k.
Proof. apply (isPowerOfTwo_signed_iff (- 2 ^ 31)). range_solve. Defined.

(** ** bitExtract and bitInsert *)

Lemma testbit_one j : Z.testbit 1 j = (j =? 0).
Proof.
  destruct (Z_lt_le_dec j 0) as [Hneg | Hpos].
  - rewrite Z.testbit_neg_r by lia. symmetry. apply Z.eqb_neq. lia.
  - change 1 with (2 ^ 0). rewrite Z.pow2_bits_eqb by lia. apply Z.eqb_sym.
Qed.

(** The bits of [( x & 1 ) << pos] in the type. *)
Lemma low_bit_shifted_bits ty x pos i :
  0 < width ty -> 0 <= pos < width ty -> 0 <= i < width ty ->
  Z.testbit (shl ty (band ty x 1) pos) i = (i =? pos) && Z.testbit x 0.
Proof.
  intros Hw Hpos Hi. unfold shl, band.
  rewrite testbit_wrap, Z.shiftl_spec by lia.
  destruct (Z_lt_le_dec i pos) as [Hlt | Hge].
  - rewrite Z.testbit_neg_r by lia.
    destruct (Z.eqb_spec i pos); [lia | reflexivity].
  - rewrite testbit_wrap, Z.land_spec, testbit_one by lia.
    destruct (Z.eqb_spec i pos) as [-> | N].
    + rewrite Z.sub_diag. apply andb_comm.
    + destruct (Z.eqb_spec (i - pos) 0); [lia | apply andb_false_r].
Qed.

Lemma bitExtract_bits ty v pos i :
  0 < width ty -> 0 <= pos < width ty -> 0 <= i < width ty ->
  Z.testbit (bitExtract ty v pos) i = (i =? pos) && Z.testbit v pos.
Proof.
  intros Hw Hpos Hi. unfold bitExtract.
  rewrite low_bit_shifted_bits by lia.
  unfold shr. rewrite testbit_wrap, Z.shiftr_spec by lia.
  reflexivity.
Qed.

(** [bitExtract] returns the bit in place: the result, as a bit pattern, is
    [2 ^ position] when the bit is set and 0 when it is not. *)
Theorem bitExtract_in_place ty v pos :
  0 < width ty -> 0 <= pos < width ty ->
  in_range ty (bitExtract ty v pos) /\
  pattern ty (bitExtract ty v pos) = if Z.testbit v pos then 2 ^ pos else 0.
Proof.
  intros Hw Hpos. split; [apply wrap_range, Hw |].
  rewrite pattern_eq. unfold modulus. apply Z.bits_inj'. intros i Hi.
  assert (Hrhs : Z.testbit (if Z.testbit v pos then 2 ^ pos else 0) i
                 = (i =? pos) && Z.testbit v pos).
  { destruct (Z.testbit v pos).
    - rewrite Z.pow2_bits_eqb, andb_true_r by lia. apply Z.eqb_sym.
    - rewrite Z.bits_0. symmetry. apply andb_false_r. }
  rewrite Hrhs. destruct (Z_lt_le_dec i (width ty)) as [Hlt | Hge].
  - rewrite Z.mod_pow2_bits_low by lia. apply bitExtract_bits; lia.
  - rewrite Z.mod_pow2_bits_high by lia.
    destruct (Z.eqb_spec i pos); [lia | reflexivity].
Qed.

Lemma bitExtract_in_place_witness :
  in_range int8 (bitExtract int8 (-3) 7) /\
  pattern int8 (bitExtract int8 (-3) 7)
  = if Z.testbit (-3) 7 then 2 ^ 7 else 0.
Proof. apply (bitExtract_in_place int8 (-3) 7); cbn; lia. Defined.

(** What [bitInsert] does to each bit: the bit at [position] becomes the
    old bit or-ed with the least-significant bit of [bit]; every other bit
    stays. *)
Theorem bitInsert_bits ty v bit pos i :
  0 < width ty -> 0 <= pos < width ty -> 0 <= i < width ty ->
  Z.testbit (bitInsert ty v bit pos) i
  = Z.testbit v i || ((i =? pos) && Z.testbit bit 0).
Proof.
  intros Hw Hpos Hi. rewrite bitInsert_is_or by trivial.
  unfold bor. rewrite testbit_wrap, Z.lor_spec by lia.
  rewrite low_bit_shifted_bits by lia. reflexivity.
Qed.

Lemma bitInsert_bits_witness :
  Z.testbit (bitInsert uint8 4 1 0) 0
  = Z.testbit 4 0 || ((0 =? 0) && Z.testbit 1 0).
Proof. apply (bitInsert_bits uint8 4 1 0 0); cbn; lia. Defined.

(** Putting back the bit that [bitExtract] took out changes nothing:
    [bitInsert(v, bitExtract(v, pos) >> pos, pos) == v]. *)
Theorem bitInsert_bitExtract_id ty v pos :
  0 < width ty -> in_range ty v -> 0 <= pos < width ty ->
  bitInsert ty v (shr ty (bitExtract ty v pos) pos) pos = v.
Proof.
  intros Hw Hv Hpos. rewrite bitInsert_is_or by trivial.
  rewrite <- (wrap_in_range ty v Hw Hv) at 3.
  unfold bor. apply wrap_eq_bits; trivial. intros i Hi.
  rewrite Z.lor_spec, low_bit_shifted_bits by lia.
  unfold shr at 1. rewrite testbit_wrap, Z.shiftr_spec by lia.
  rewrite Z.add_0_l, bitExtract_bits, Z.eqb_refl by lia.
  cbn [andb]. destruct (Z.eqb_spec i pos) as [-> | _].
  - destruct (Z.testbit v pos); reflexivity.
  - apply orb_false_r.
Qed.

Lemma bitInsert_bitExtract_id_witness :
  bitInsert int32 (-5) (shr int32 (bitExtract int32 (-5) 31) 31) 31 = -5.
Proof.
  apply (bitInsert_bitExtract_id int32 (-5) 31); range_solve.
Defined.

(** ** countLeadingZeros, bfind and popc *)

(** [countLeadingZeros] is between 0 and the width, is the width exactly
    for 0, and for any other value [n = countLeadingZeros v] places the bit
    pattern between [2 ^ (W - 1 - n)] and [2 ^ (W - n)]: the top [n] bits
    are zero and the next one is set.  This holds at every width, 64
    included. *)
Theorem countLeadingZeros_count ty v :
  0 < width ty <= 64 -> in_range ty v ->
  0 <= countLeadingZeros ty v <= width ty /\
  (countLeadingZeros ty v = width ty <-> v = 0) /\
  (v <> 0 ->
   2 ^ (width ty - 1 - countLeadingZeros ty v) <= pattern ty v
   < 2 ^ (width ty - countLeadingZeros ty v)).
Proof.
  intros Hw Hv. rewrite countLeadingZeros_spec by trivial.
  pose proof (pattern_range ty v ltac:(lia)) as Hu. unfold modulus in Hu.
  destruct (Z.eqb_spec (pattern ty v) 0) as [E | N].
  - assert (v = 0).
    { destruct (Z.eq_dec v 0) as [E0 | N0]; trivial.
      exfalso. apply (pattern_nonzero ty v); trivial. lia. }
    split; [lia |]. split; [tauto | contradiction].
  - assert (Hn : v <> 0).
    { intros ->. apply N. rewrite pattern_eq. apply Z.mod_0_l.
      unfold modulus. pose proof (Z.pow_pos_nonneg 2 (width ty)). lia. }
    pose proof (Z.log2_nonneg (pattern ty v)) as Hl0.
    assert (Hl : Z.log2 (pattern ty v) < width ty)
      by (apply Z.log2_lt_pow2; lia).
    pose proof (Z.log2_spec (pattern ty v) ltac:(lia)) as Hs.
    unfold Z.succ in Hs.
    split; [lia |]. split; [split; [lia | contradiction] |].
    intros _.
    replace (width ty - 1 - (width ty - 1 - Z.log2 (pattern ty v)))
      with (Z.log2 (pattern ty v)) by lia.
    replace (width ty - (width ty - 1 - Z.log2 (pattern ty v)))
      with (Z.log2 (pattern ty v) + 1) by lia.
    exact Hs.
Qed.

Lemma countLeadingZeros_count_witness :
  0 <= countLeadingZeros uint64 5 <= width uint64 /\
  (countLeadingZeros uint64 5 = width uint64 <-> 5 = 0) /\
  (5 <> 0 ->
   2 ^ (width uint64 - 1 - countLeadingZeros uint64 5) <= pattern uint64 5
   < 2 ^ (width uint64 - countLeadingZeros uint64 5)).
Proof. apply (countLeadingZeros_count uint64 5); range_solve. Defined.

(** On the 8-, 16- and 32-bit types [bfind] finds the topmost set bit: for
    [v <> 0] the index it returns is below the width, that bit of [v] is
    set and no bit above it is; with [shiftAmount] it returns the distance
    of that bit to the top.  Whatever an out-of-range shift would yield
    plays no part. *)
Theorem bfind_narrow_index shl_oob ty v :
  width ty = 8 \/ width ty = 16 \/ width ty = 32 ->
  in_range ty v -> v <> 0 ->
  0 <= bfind shl_oob ty v false < width ty /\
  Z.testbit v (bfind shl_oob ty v false) = true /\
  (forall i, bfind shl_oob ty v false < i < width ty ->
             Z.testbit v i = false) /\
  bfind shl_oob ty v true = width ty - 1 - bfind shl_oob ty v false.
Proof.
  intros Hw Hv Hn. assert (Hw0 : 0 < width ty) by lia.
  destruct (bfind_narrow_spec shl_oob ty v Hw Hv) as [Hb _].
  destruct (Hb Hn) as [Hidx Hsh]. rewrite Hidx, Hsh.
  pose proof (pattern_nonzero ty v Hw0 Hv Hn) as Hp.
  pose proof (pattern_range ty v Hw0) as Hu. unfold modulus in Hu.
  pose proof (Z.log2_nonneg (pattern ty v)) as Hl0.
  assert (Hl : Z.log2 (pattern ty v) < width ty)
    by (apply Z.log2_lt_pow2; lia).
  split; [lia |]. split; [| split; [| reflexivity]].
  - rewrite <- (testbit_pattern ty v) by lia. apply Z.bit_log2. lia.
  - intros i Hi. rewrite <- (testbit_pattern ty v) by lia.
    apply Z.bits_above_log2; lia.
Qed.

Lemma bfind_narrow_index_witness :
  0 <= bfind shl_count_mod32 int16 (-2) false < width int16 /\
  Z.testbit (-2) (bfind shl_count_mod32 int16 (-2) false) = true /\
  (forall i, bfind shl_count_mod32 int16 (-2) false < i < width int16 ->
             Z.testbit (-2) i = false) /\
  bfind shl_count_mod32 int16 (-2) true
  = width int16 - 1 - bfind shl_count_mod32 int16 (-2) false.
Proof.
  apply (bfind_narrow_index shl_count_mod32 int16 (-2)).
  - right; left; reflexivity.
  - range_solve.
  - discriminate.
Defined.

Lemma popc_unsigned_spec_witness :
  exists pv pnv,
    popc uint8 (Z.to_nat (width uint8)) 5 = Some pv /\
    popc uint8 (Z.to_nat (width uint8)) (bnot uint8 5) = Some pnv /\
    pv = hamming_weight uint8 5 /\
    0 <= pv <= width uint8 /\
    pv + pnv = width uint8.
Proof.
  apply (popc_unsigned_spec uint8 5); [range_solve | reflexivity | range_solve].
Defined.

(** ** powerOfTwo beyond [2 ^ 31] *)

Lemma filled_uint32 k m x : 0 <= k <= 31 -> filled k m x -> 0 <= x < 2 ^ 32.
Proof.
  intros Hk [Hr _].
  assert (2 ^ (k + 1) <= 2 ^ 32) by (apply Z.pow_le_mono_r; lia). lia.
Qed.

(** The five or-shift steps set every bit below the topmost set bit, for
    any nonzero [unsigned int]. *)
Lemma powerOfTwo_fill x :
  0 < x < 2 ^ 32 ->
  let x1 := bor uint32 x (shr uint32 x 1) in
  let x2 := bor uint32 x1 (shr uint32 x1 2) in
  let x3 := bor uint32 x2 (shr uint32 x2 4) in
  let x4 := bor uint32 x3 (shr uint32 x3 8) in
  bor uint32 x4 (shr uint32 x4 16) = Z.ones (Z.log2 x + 1).
Proof.
  intros Hx. set (k := Z.log2 x).
  assert (Hk : 0 <= k <= 31).
  { split; [apply Z.log2_nonneg |].
    assert (k < 32) by (apply Z.log2_lt_pow2; lia). lia. }
  pose proof (filled_init x ltac:(lia)) as F0. fold k in F0.
  cbv zeta.
  rewrite (powerOfTwo_fill_op x 1) by lia.
  set (x1 := Z.lor x (Z.shiftr x 1)).
  assert (F1 : filled k 2 x1) by (apply (filled_step k 1); trivial; lia).
  rewrite (powerOfTwo_fill_op x1 2) by (try lia; exact (filled_uint32 _ _ _ Hk F1)).
  set (x2 := Z.lor x1 (Z.shiftr x1 2)).
  assert (F2 : filled k 4 x2) by (apply (filled_step k 2); trivial; lia).
  rewrite (powerOfTwo_fill_op x2 4) by (try lia; exact (filled_uint32 _ _ _ Hk F2)).
  set (x3 := Z.lor x2 (Z.shiftr x2 4)).
  assert (F3 : filled k 8 x3) by (apply (filled_step k 4); trivial; lia).
  rewrite (powerOfTwo_fill_op x3 8) by (try lia; exact (filled_uint32 _ _ _ Hk F3)).
  set (x4 := Z.lor x3 (Z.shiftr x3 8)).
  assert (F4 : filled k 16 x4) by (apply (filled_step k 8); trivial; lia).
  rewrite (powerOfTwo_fill_op x4 16) by (try lia; exact (filled_uint32 _ _ _ Hk F4)).
  set (x5 := Z.lor x4 (Z.shiftr x4 16)).
  assert (F5 : filled k 32 x5) by (apply (filled_step k 16); trivial; lia).
  apply (filled_all k 32); [lia | exact F5].
Qed.

(** Above [2 ^ 31] the next power of two does not fit: [powerOfTwo] wraps
    around and returns 0, as it does for 0. *)
Theorem powerOfTwo_overflow v :
  2 ^ 31 < v < 2 ^ 32 -> powerOfTwo v = 0 /\ powerOfTwo 0 = 0.
Proof.
  intros Hv. split; [| reflexivity].
  unfold powerOfTwo.
  assert (E0 : sub uint32 v 1 = v - 1)
    by (unfold sub; apply wrap_uint32_small; lia).
  rewrite E0.
  pose proof (powerOfTwo_fill (v - 1) ltac:(lia)) as Hf. cbv zeta in Hf.
  rewrite Hf.
  assert (Hlog : Z.log2 (v - 1) = 31).
  { apply Z.log2_unique; [lia |]. change (Z.succ 31) with 32. lia. }
  rewrite Hlog. reflexivity.
Qed.

Lemma powerOfTwo_overflow_witness :
  powerOfTwo 3000000000 = 0 /\ powerOfTwo 0 = 0.
Proof. apply (powerOfTwo_overflow 3000000000). cbn. lia. Defined.

(** ** multiplyHiLo at every even width *)

(** The operators on values of the unsigned counterpart that are in
    range. *)
Lemma wrap_utype_small ty z :
  0 <= z < modulus ty -> wrap (SignedToUnsigned ty) z = z.
Proof. intros Hz. rewrite wrap_unsigned. apply Z.mod_small, Hz. Qed.

Lemma add_utype_small ty p q :
  0 <= p + q < modulus ty -> add (SignedToUnsigned ty) p q = p + q.
Proof. intros H. unfold add. apply wrap_utype_small, H. Qed.

Lemma shr_utype ty x n :
  0 < width ty -> 0 <= x < modulus ty -> 0 <= n ->
  shr (SignedToUnsigned ty) x n = x / 2 ^ n.
Proof.
  intros Hw Hx Hn. unfold shr, modulus in *.
  pose proof (shiftr_bound (width ty) x n Hn Hx) as Hb.
  rewrite Z.shiftr_div_pow2 in * by lia.
  apply wrap_utype_small, Hb.
Qed.

Lemma band_ones_utype ty x k :
  0 <= x < modulus ty -> 0 <= k ->
  band (SignedToUnsigned ty) x (Z.ones k) = x mod 2 ^ k.
Proof.
  intros Hx Hk. unfold band. rewrite Z.land_ones by lia.
  apply wrap_utype_small.
  assert (Hp : 0 < 2 ^ k) by (apply Z.pow_pos_nonneg; lia).
  pose proof (Z.mod_pos_bound x (2 ^ k) Hp).
  pose proof (Z.mod_le x (2 ^ k) ltac:(lia) Hp). lia.
Qed.

Lemma bnot_utype ty x :
  0 <= x < modulus ty -> bnot (SignedToUnsigned ty) x = modulus ty - 1 - x.
Proof.
  intros Hx. unfold bnot. rewrite wrap_unsigned.
  symmetry. apply Z.mod_unique with (q := -1); unfold Z.lnot; lia.
Qed.

(** The carry out of an addition of two numbers below [2 * T], from their
    top bits and the sum of what is below. *)
Lemma carry_by_halves T p q :
  0 < T -> 0 <= p < 2 * T -> 0 <= q < 2 * T ->
  0 <= p / T <= 1 /\ 0 <= q / T <= 1 /\
  0 <= (p mod T + q mod T) / T <= 1 /\
  (p / T + q / T + (p mod T + q mod T) / T) / 2 = (p + q) / (2 * T).
Proof.
  intros HT Hp Hq.
  pose proof (Z.mod_pos_bound p T HT) as Hp0.
  pose proof (Z.mod_pos_bound q T HT) as Hq0.
  assert (Hp1 : 0 <= p / T <= 1).
  { split; [apply Z.div_pos; lia |].
    assert (p / T < 2) by (apply Z.div_lt_upper_bound; lia). lia. }
  assert (Hq1 : 0 <= q / T <= 1).
  { split; [apply Z.div_pos; lia |].
    assert (q / T < 2) by (apply Z.div_lt_upper_bound; lia). lia. }
  assert (Hc : 0 <= (p mod T + q mod T) / T <= 1).
  { split; [apply Z.div_pos; lia |].
    assert ((p mod T + q mod T) / T < 2)
      by (apply Z.div_lt_upper_bound; lia). lia. }
  repeat (split; [assumption |]).
  set (s := p / T + q / T + (p mod T + q mod T) / T).
  pose proof (Z.mod_pos_bound (p mod T + q mod T) T HT) as Hr.
  assert (E : p + q = s * T + (p mod T + q mod T) mod T).
  { pose proof (Z.div_mod p T ltac:(lia)) as E1.
    pose proof (Z.div_mod q T ltac:(lia)) as E2.
    pose proof (Z.div_mod (p mod T + q mod T) T ltac:(lia)) as E3.
    unfold s. lia. }
  rewrite E, (Z.mul_comm 2 T), <- Z.div_div by lia.
  rewrite Z.div_add_l, (Z.div_small _ T), Z.add_0_r by lia.
  reflexivity.
Qed.

Section MultiplyAtWidth.

(** A type of even width [2 * h]. *)
Variable ty : itype.
Variable h : Z.
Hypothesis Hh : 1 <= h.
Hypothesis Hwidth : width ty = 2 * h.

Let B := 2 ^ h.
Let M := modulus ty.
Let T := half_modulus ty.

Lemma digit_base_facts :
  0 < width ty /\ 2 <= B /\ M = B * B /\ M = 2 * T /\ B <= T /\ 0 < T.
Proof.
  assert (Hw : 0 < width ty) by lia.
  assert (HB : 2 <= B).
  { unfold B. change 2 with (2 ^ 1) at 1. apply Z.pow_le_mono_r; lia. }
  assert (HM : M = B * B).
  { unfold M, B, modulus. rewrite Hwidth, <- Z.pow_add_r by lia.
    f_equal. lia. }
  assert (HT : B <= T).
  { unfold B, T, half_modulus. apply Z.pow_le_mono_r; lia. }
  repeat split; try assumption; try lia.
  apply modulus_double_half, Hw.
Qed.

Lemma operand_magnitude r :
  in_range ty r ->
  isNegative ty r = (r <? 0) /\
  wrap (SignedToUnsigned ty) (if isNegative ty r then neg ty r else r)
  = Z.abs r /\
  0 <= Z.abs r < M.
Proof.
  intros Hr. destruct digit_base_facts as (Hw & HB & HM & HMT & HBT & HT).
  fold M T in HMT.
  assert (Hb : - T <= r < M /\ (is_signed ty = false -> 0 <= r)).
  { unfold in_range, min_val, max_val in Hr. fold M T in Hr.
    destruct (is_signed ty); split; try lia; discriminate. }
  destruct Hb as [Hb Hu].
  assert (Hneg : isNegative ty r = (r <? 0)).
  { unfold isNegative. destruct (is_signed ty); [reflexivity |].
    cbn [andb]. symmetry. apply Z.ltb_ge. auto. }
  split; [exact Hneg |]. rewrite Hneg.
  destruct (Z.ltb_spec r 0) as [Hlt | Hge].
  - split; [| lia].
    unfold neg. rewrite wrap_unsigned, wrap_mod by trivial.
    fold M. rewrite Z.mod_small by lia. lia.
  - split; [| lia].
    rewrite wrap_unsigned. fold M. rewrite Z.mod_small by lia. lia.
Qed.

(** The two masks and the shift count. *)
Lemma low_mask_value k :
  0 <= k < width ty ->
  wrap (SignedToUnsigned ty) (sub ty (shl ty 1 k) 1) = Z.ones k.
Proof.
  intros Hk. destruct digit_base_facts as (Hw & _).
  assert (Hm : 0 < modulus ty) by (apply modulus_pos, Hw).
  unfold sub, shl. rewrite wrap_unsigned, wrap_mod by trivial.
  rewrite Zminus_mod, wrap_mod, <- Zminus_mod by trivial.
  rewrite Z.shiftl_mul_pow2, Z.mul_1_l, Z.ones_equiv by lia.
  apply Z.mod_small.
  assert (0 < 2 ^ k) by (apply Z.pow_pos_nonneg; lia).
  assert (2 ^ k < 2 ^ width ty) by (apply Z.pow_lt_mono_r; lia).
  unfold modulus. lia.
Qed.

Lemma total_bits_value :
  wrap (SignedToUnsigned ty) (width ty - 1) = width ty - 1.
Proof.
  destruct digit_base_facts as (Hw & _).
  apply wrap_utype_small. unfold modulus.
  pose proof (Z.pow_gt_lin_r 2 (width ty) ltac:(lia) ltac:(lia)). lia.
Qed.


(** The three places where [multiplyHiLo] computes a carry. *)
Lemma carry_of_sum_at_width p q :
  0 <= p < M -> 0 <= q < M ->
  shr (SignedToUnsigned ty)
    (add (SignedToUnsigned ty)
       (add (SignedToUnsigned ty)
          (shr (SignedToUnsigned ty) p (width ty - 1))
          (shr (SignedToUnsigned ty) q (width ty - 1)))
       (shr (SignedToUnsigned ty)
          (add (SignedToUnsigned ty)
             (band (SignedToUnsigned ty) p (Z.ones (width ty - 1)))
             (band (SignedToUnsigned ty) q (Z.ones (width ty - 1))))
          (width ty - 1))) 1
  = (p + q) / M.
Proof.
  intros Hp Hq.
  destruct digit_base_facts as (Hw & HB & HM & HMT & HBT & HT).
  assert (HM4 : 4 <= M) by nia.
  destruct (carry_by_halves T p q HT ltac:(lia) ltac:(lia))
    as (Hp1 & Hq1 & Hc & E).
  pose proof (Z.mod_pos_bound p T HT). pose proof (Z.mod_pos_bound q T HT).
  rewrite !band_ones_utype by (fold M; lia).
  rewrite (shr_utype ty p), (shr_utype ty q) by (trivial; fold M; lia).
  fold (half_modulus ty). fold T.
  rewrite (add_utype_small ty (p mod T)) by (fold M; lia).
  rewrite (shr_utype ty (p mod T + q mod T)) by (trivial; fold M; lia).
  fold (half_modulus ty). fold T.
  rewrite (add_utype_small ty (p / T)) by (fold M; lia).
  rewrite add_utype_small by (fold M; lia).
  rewrite shr_utype by (trivial; fold M; lia).
  change (2 ^ 1) with 2. rewrite E, HMT. reflexivity.
Qed.

Lemma carry_of_sum_low_at_width p q :
  0 <= p < M -> 0 <= q < T ->
  shr (SignedToUnsigned ty)
    (add (SignedToUnsigned ty)
       (shr (SignedToUnsigned ty)
          (add (SignedToUnsigned ty)
             (band (SignedToUnsigned ty) p (Z.ones (width ty - 1))) q)
          (width ty - 1))
       (shr (SignedToUnsigned ty) p (width ty - 1))) 1
  = (p + q) / M.
Proof.
  intros Hp Hq.
  destruct digit_base_facts as (Hw & HB & HM & HMT & HBT & HT).
  assert (HM4 : 4 <= M) by nia.
  destruct (carry_by_halves T p q HT ltac:(lia) ltac:(lia))
    as (Hp1 & Hq1 & Hc & E).
  rewrite (Z.div_small q T), (Z.mod_small q T), Z.add_0_r in * by lia.
  pose proof (Z.mod_pos_bound p T HT).
  rewrite !band_ones_utype by (fold M; lia).
  rewrite (shr_utype ty p) by (trivial; fold M; lia).
  fold (half_modulus ty). fold T.
  rewrite (add_utype_small ty (p mod T)) by (fold M; lia).
  rewrite (shr_utype ty (p mod T + q)) by (trivial; fold M; lia).
  fold (half_modulus ty). fold T.
  rewrite add_utype_small by (fold M; lia).
  rewrite shr_utype by (trivial; fold M; lia).
  change (2 ^ 1) with 2.
  rewrite (Z.add_comm ((p mod T + q) / T)), E, HMT. reflexivity.
Qed.

Lemma carry_of_increment_at_width n :
  0 <= n < M ->
  shr (SignedToUnsigned ty)
    (add (SignedToUnsigned ty)
       (shr (SignedToUnsigned ty) n (width ty - 1))
       (shr (SignedToUnsigned ty)
          (add (SignedToUnsigned ty)
             (band (SignedToUnsigned ty) n (Z.ones (width ty - 1))) 1)
          (width ty - 1))) 1
  = (n + 1) / M.
Proof.
  intros Hn.
  destruct digit_base_facts as (Hw & HB & HM & HMT & HBT & HT).
  rewrite <- (carry_of_sum_low_at_width n 1) by lia.
  f_equal. unfold add at 1 3. f_equal. apply Z.add_comm.
Qed.

Lemma multiplyHiLo_patterns r0 r1 (P : Z * Z -> Prop) :
  in_range ty r0 -> in_range ty r1 ->
  (forall hi lo, in_range ty hi -> in_range ty lo ->
     pattern ty hi * modulus ty + pattern ty lo
     = (r0 * r1) mod (modulus ty * modulus ty) -> P (hi, lo)) ->
  P (multiplyHiLo ty r0 r1).
Proof.
  intros Hr0 Hr1 HP.
  destruct digit_base_facts as (Hw & HB & HM & HMT & HBT & HT).
  destruct (operand_magnitude r0 Hr0) as (Hn0 & HA & HAr).
  destruct (operand_magnitude r1 Hr1) as (Hn1 & HB' & HBr).
  fold M in HP.
  assert (HM0 : 0 < M) by lia.
  assert (HB0 : 0 < B) by lia.
  cbv delta [multiplyHiLo]. cbv beta.
  repeat pull_let. subst utype.
  assert (Hbits : bits = h).
  { subst bits. rewrite Hwidth, Z.mul_comm. apply Z.div_mul. lia. }
  assert (HtotalBits : totalBits = width ty - 1) by apply total_bits_value.
  assert (Hmask : mask = Z.ones h).
  { subst mask. rewrite Hbits. apply low_mask_value. lia. }
  assert (HupperMask : upperMask = Z.ones (width ty - 1)).
  { subst upperMask. rewrite HtotalBits. apply low_mask_value. lia. }
  clearbody bits mask totalBits upperMask. subst bits mask totalBits upperMask.
  fold r0Signed in HA. fold r2 in HA. fold r1Signed in HB'. fold r3 in HB'.
  fold r0Signed in Hn0. fold r1Signed in Hn1.
  assert (Hsign : r0 * r1 = if negative then - (Z.abs r0 * Z.abs r1)
                            else Z.abs r0 * Z.abs r1).
  { subst negative. rewrite Hn0, Hn1.
    destruct (Z.ltb_spec r0 0), (Z.ltb_spec r1 0); cbn [andb orb negb]; lia. }
  clearbody negative.
  set (A := Z.abs r0) in *. set (C := Z.abs r1) in *. clearbody A C.
  assert (Ha : a = A / B)
    by (subst a; rewrite HA; apply shr_utype; trivial; lia).
  assert (Hb : b = A mod B)
    by (subst b; rewrite HA; apply band_ones_utype; trivial; lia).
  assert (Hc : c = C / B)
    by (subst c; rewrite HB'; apply shr_utype; trivial; lia).
  assert (Hd : d = C mod B)
    by (subst d; rewrite HB'; apply band_ones_utype; trivial; lia).
  clearbody a b c d. clear HA HB' Hn0 Hn1 r0Signed r1Signed r2 r3.
  assert (Hab : A = B * a + b /\ 0 <= a < B /\ 0 <= b < B).
  { subst a b. split; [apply Z.div_mod; lia |].
    split; [| apply Z.mod_pos_bound; lia].
    split; [apply Z.div_pos; lia | apply Z.div_lt_upper_bound; lia]. }
  assert (Hcd : C = B * c + d /\ 0 <= c < B /\ 0 <= d < B).
  { subst c d. split; [apply Z.div_mod; lia |].
    split; [| apply Z.mod_pos_bound; lia].
    split; [apply Z.div_pos; lia | apply Z.div_lt_upper_bound; lia]. }
  clear Ha Hb Hc Hd.
  assert (Hprod : forall p q, 0 <= p < B -> 0 <= q < B ->
                  mul (SignedToUnsigned ty) p q = p * q /\ 0 <= p * q < M).
  { intros p q Hp Hq. assert (0 <= p * q < M) by nia.
    split; trivial. unfold mul. apply wrap_utype_small. trivial. }
  destruct (Hprod d a) as [Hda Hdar]; try lia.
  destruct (Hprod d b) as [Hdb Hdbr]; try lia.
  destruct (Hprod c a) as [Hca Hcar]; try lia.
  destruct (Hprod c b) as [Hcb Hcbr]; try lia.
  fold da in Hda. fold db in Hdb. fold ca in Hca. fold cb in Hcb.
  rewrite <- Hda in Hdar. rewrite <- Hdb in Hdbr.
  rewrite <- Hca in Hcar. rewrite <- Hcb in Hcbr.
  assert (HAB : A * C = M * ca + B * (da + cb) + db).
  { rewrite Hda, Hdb, Hca, Hcb, HM. destruct Hab as [-> _], Hcd as [-> _]. ring. }
  assert (HABr : 0 <= A * C < M * M) by nia.
  clearbody da db ca cb. clear Hprod Hda Hdb Hca Hcb Hab Hcd a b c d.
  (* the middle column *)
  assert (HxCarryOut : xCarryOut = (da + cb) / M).
  { subst xCarryOut xCarryIn daUpper cbUpper.
    apply carry_of_sum_at_width; assumption. }
  assert (Hx : x = (da + cb) mod M) by reflexivity.
  assert (Hq : shr (SignedToUnsigned ty) db h = db / B)
    by (apply shr_utype; trivial; lia).
  assert (Hqr : 0 <= db / B < B).
  { split; [apply Z.div_pos; lia | apply Z.div_lt_upper_bound; lia]. }
  assert (Hxr : 0 <= x < M) by (rewrite Hx; apply Z.mod_pos_bound; lia).
  assert (HyCarryOut : yCarryOut = (x + db / B) / M).
  { subst yCarryOut yCarryIn xUpper. rewrite Hq.
    apply carry_of_sum_low_at_width; [assumption | lia]. }
  assert (Hy : y = (db / B + x) mod M)
    by (subst y; rewrite Hq; reflexivity).
  assert (Hyr : 0 <= y < M) by (rewrite Hy; apply Z.mod_pos_bound; lia).
  clearbody xCarryOut x yCarryOut y.
  clear xCarryIn daUpper cbUpper yCarryIn xUpper.
  set (Q := A * C) in *. clearbody Q. clear A C HAr HBr.
  assert (Hxc : 0 <= xCarryOut <= 1).
  { rewrite HxCarryOut. split; [apply Z.div_pos; lia |].
    assert ((da + cb) / M < 2) by (apply Z.div_lt_upper_bound; lia). lia. }
  assert (Hyc : 0 <= yCarryOut <= 1).
  { rewrite HyCarryOut. split; [apply Z.div_pos; lia |].
    assert ((x + db / B) / M < 2) by (apply Z.div_lt_upper_bound; lia). lia. }
  (* the two result words *)
  pose proof (Z.mod_pos_bound db B HB0) as Hdl.
  pose proof (Z.mod_pos_bound y B HB0) as Hyl.
  assert (Hyq : 0 <= y / B < B).
  { split; [apply Z.div_pos; lia | apply Z.div_lt_upper_bound; lia]. }
  assert (HloU : bor (SignedToUnsigned ty)
                   (band (SignedToUnsigned ty) db (Z.ones h))
                   (shl (SignedToUnsigned ty)
                      (band (SignedToUnsigned ty) y (Z.ones h)) h)
                 = db mod B + y mod B * B).
  { rewrite !band_ones_utype by (fold M; lia). fold B.
    unfold bor, shl. rewrite Z.shiftl_mul_pow2 by lia. fold B.
    rewrite (wrap_utype_small ty (y mod B * B)) by (fold M; nia).
    unfold B at 3. rewrite lor_disjoint_add by (fold B; lia). fold B.
    apply wrap_utype_small. fold M. nia. }
  assert (Hsplit : Q = M * (y / B + ca + (yCarryOut + xCarryOut) * B)
                       + (db mod B + y mod B * B)).
  { pose proof (Z.div_mod (da + cb) M ltac:(lia)) as E1.
    rewrite <- HxCarryOut, <- Hx in E1.
    pose proof (Z.div_mod (x + db / B) M ltac:(lia)) as E2.
    rewrite <- HyCarryOut, (Z.add_comm x (db / B)), <- Hy in E2.
    pose proof (Z.div_mod db B ltac:(lia)) as E3.
    pose proof (Z.div_mod y B ltac:(lia)) as E4.
    set (dq := db / B) in *. set (dl := db mod B) in *.
    set (yq := y / B) in *. set (yl := y mod B) in *.
    assert (F1 : B * (da + cb) = B * M * xCarryOut + B * x)
      by (rewrite E1; ring).
    assert (F2 : B * x + B * dq = B * M * yCarryOut + B * y)
      by (rewrite <- Z.mul_add_distr_l, (Z.add_comm x dq), E2; ring).
    assert (F3 : B * y = B * B * yq + B * yl) by (rewrite E4 at 1; ring).
    rewrite HAB. rewrite HM in *. lia. }
  assert (HhiU : add (SignedToUnsigned ty)
                   (add (SignedToUnsigned ty)
                      (shr (SignedToUnsigned ty) y h) ca)
                   (shl (SignedToUnsigned ty)
                      (add (SignedToUnsigned ty) yCarryOut xCarryOut) h)
                 = y / B + ca + (yCarryOut + xCarryOut) * B).
  { assert (Hfit : y / B + ca + (yCarryOut + xCarryOut) * B < M) by nia.
    assert (Hcc : 0 <= (yCarryOut + xCarryOut) * B) by nia.
    rewrite shr_utype by (trivial; fold M; lia). fold B.
    rewrite (add_utype_small ty yCarryOut) by (fold M; lia).
    unfold shl. rewrite Z.shiftl_mul_pow2 by lia. fold B.
    rewrite (wrap_utype_small ty ((yCarryOut + xCarryOut) * B))
      by (fold M; lia).
    rewrite (add_utype_small ty (y / B)) by (fold M; lia).
    apply add_utype_small. fold M. lia. }
  set (hiU := y / B + ca + (yCarryOut + xCarryOut) * B) in *.
  set (loU := db mod B + y mod B * B) in *.
  assert (HloUr : 0 <= loU < M) by (subst loU; nia).
  assert (HhiUr : 0 <= hiU < M) by (subst hiU; nia).
  clearbody hiU loU.
  clear HAB HxCarryOut Hx Hq Hqr Hxr HyCarryOut Hy Hyr Hxc Hyc
        Hdar Hdbr Hcar Hcbr Hdl Hyl Hyq.
  assert (Hlo : lo = wrap ty loU) by (subst lo; rewrite HloU; reflexivity).
  assert (Hhi : hi = wrap ty hiU) by (subst hi; rewrite HhiU; reflexivity).
  clearbody lo hi. clear HloU HhiU xCarryOut yCarryOut da db ca cb x y.
  assert (Hplo : wrap (SignedToUnsigned ty) lo = loU).
  { rewrite Hlo, wrap_unsigned, wrap_mod by trivial.
    apply Z.mod_small. exact HloUr. }
  assert (Hphi : wrap (SignedToUnsigned ty) hi = hiU).
  { rewrite Hhi, wrap_unsigned, wrap_mod by trivial.
    apply Z.mod_small. exact HhiUr. }
  assert (Hsc : signCarryOut = if loU =? 0 then 1 else 0).
  { subst signCarryOut loUpperBit signCarryIn. rewrite Hplo.
    rewrite bnot_utype by exact HloUr. fold M.
    rewrite carry_of_increment_at_width by lia.
    replace (M - 1 - loU + 1) with (M - loU) by lia.
    destruct (Z.eqb_spec loU 0) as [-> | N].
    - rewrite Z.sub_0_r. apply Z.div_same. lia.
    - apply Z.div_small. lia. }
  clearbody signCarryOut. clear loUpperBit signCarryIn.
  apply HP.
  - subst hi'. destruct negative; [| rewrite Hhi]; apply wrap_range; lia.
  - subst lo'. destruct negative; [unfold neg | rewrite Hlo];
      apply wrap_range; lia.
  - rewrite Hsign. subst hi' lo'. destruct negative.
    + rewrite Hphi, bnot_utype by exact HhiUr. fold M.
      unfold neg, add. rewrite !pattern_wrap by trivial. fold M.
      rewrite wrap_unsigned. fold M. rewrite Zmod_mod.
      replace (- lo) with (0 - lo) by lia.
      rewrite wrap_unsigned in Hplo. fold M in Hplo.
      rewrite <- Zminus_mod_idemp_r, Hplo, Hsc.
      assert (HMM : 0 < M * M) by nia.
      destruct (Z.eqb_spec loU 0) as [-> | N].
      * rewrite Z.sub_0_r, Z.mod_0_l, Z.add_0_r by lia.
        rewrite Z.add_0_r in Hsplit.
        destruct (Z.eq_dec hiU 0) as [-> | Nh].
        -- rewrite Hsplit. replace (M - 1 - 0 + 1) with (1 * M) by lia.
           rewrite Z.mod_mul, Z.mul_0_r by lia. reflexivity.
        -- rewrite (Z.mod_small (M - 1 - hiU + 1)) by lia.
           apply Z.mod_unique with (q := -1); nia.
      * rewrite (Z.mod_small (M - 1 - hiU + 0)) by lia.
        replace ((0 - loU) mod M) with (M - loU)
          by (apply Z.mod_unique with (q := -1); lia).
        apply Z.mod_unique with (q := -1); nia.
    + rewrite !pattern_eq. fold M.
      rewrite wrap_unsigned in Hplo, Hphi. fold M in Hplo, Hphi.
      rewrite Hphi, Hplo, Z.mod_small; lia.
Qed.

(** The two result words are in range and their concatenation, read in the
    double-width type, is the product. *)
Lemma multiplyHiLo_exact_at_width r0 r1 :
  in_range ty r0 -> in_range ty r1 ->
  in_range ty (fst (multiplyHiLo ty r0 r1)) /\
  in_range ty (snd (multiplyHiLo ty r0 r1)) /\
  hilo ty (fst (multiplyHiLo ty r0 r1)) (snd (multiplyHiLo ty r0 r1))
  = r0 * r1.
Proof.
  intros H0 H1.
  destruct digit_base_facts as (Hw & HB & HM & HMT & HBT & HT).
  apply (multiplyHiLo_patterns r0 r1
           (fun p => in_range ty (fst p) /\ in_range ty (snd p) /\
                     hilo ty (fst p) (snd p) = r0 * r1)); trivial.
  intros hi lo Hhi Hlo Heq. cbn [fst snd].
  split; [exact Hhi |]. split; [exact Hlo |].
  unfold hilo. rewrite Heq.
  assert (Hdw : 0 < width (double ty)) by (unfold double; cbn [width]; lia).
  assert (Hdm : modulus (double ty) = modulus ty * modulus ty).
  { unfold modulus, double. cbn [width].
    rewrite <- Z.pow_add_r by lia. f_equal. lia. }
  rewrite <- Hdm, wrap_mod_arg by exact Hdw.
  apply wrap_in_range; [exact Hdw |].
  pose proof (modulus_double_half (double ty) Hdw) as Hdh.
  unfold in_range, min_val, max_val in H0, H1 |- *.
  change (is_signed (double ty)) with (is_signed ty).
  rewrite Hdm in *. fold M T in H0, H1, Hdh |- *.
  set (D := half_modulus (double ty)) in *. clearbody D.
  destruct (is_signed ty); nia.
Qed.

End MultiplyAtWidth.

Lemma supported_width_even ty :
  width ty = 8 \/ width ty = 16 \/ width ty = 32 \/ width ty = 64 ->
  exists h, 1 <= h /\ width ty = 2 * h.
Proof.
  intros [E | [E | [E | E]]]; rewrite E;
    [exists 4 | exists 8 | exists 16 | exists 32]; split; lia.
Qed.

(** [multiplyHiLo] is exact at every supported width, 8, 16, 32 or 64
    bits, signed or unsigned: the two words are values of the type and
    their concatenation, read in the double-width type of the same
    signedness, is the product [r0 * r1]. *)
Theorem multiplyHiLo_exact_supported ty r0 r1 :
  width ty = 8 \/ width ty = 16 \/ width ty = 32 \/ width ty = 64 ->
  in_range ty r0 -> in_range ty r1 ->
  in_range ty (fst (multiplyHiLo ty r0 r1)) /\
  in_range ty (snd (multiplyHiLo ty r0 r1)) /\
  hilo ty (fst (multiplyHiLo ty r0 r1)) (snd (multiplyHiLo ty r0 r1))
  = r0 * r1.
Proof.
  intros Hw H0 H1. destruct (supported_width_even ty Hw) as [h [Hh E]].
  apply (multiplyHiLo_exact_at_width ty h); assumption.
Qed.

Lemma multiplyHiLo_exact_supported_witness :
  in_range int64 (fst (multiplyHiLo int64 (- 2 ^ 63) (-1))) /\
  in_range int64 (snd (multiplyHiLo int64 (- 2 ^ 63) (-1))) /\
  hilo int64 (fst (multiplyHiLo int64 (- 2 ^ 63) (-1)))
    (snd (multiplyHiLo int64 (- 2 ^ 63) (-1)))
  = - 2 ^ 63 * -1.
Proof.
  apply (multiplyHiLo_exact_supported int64 (- 2 ^ 63) (-1)).
  - right; right; right; reflexivity.
  - range_solve.
  - range_solve.
Defined.

(** Two numbers below [M * M] with the same two base-[M] digits. *)
Lemma two_digits M hi lo z :
  0 < M -> 0 <= hi < M -> 0 <= lo < M ->
  hi * M + lo = z mod (M * M) ->
  lo = z mod M /\ hi = (z / M) mod M.
Proof.
  intros HM Hhi Hlo E. rewrite Z.rem_mul_r in E by lia.
  pose proof (Z.mod_pos_bound z M HM) as H1.
  pose proof (Z.mod_pos_bound (z / M) M HM) as H2.
  assert (El : lo = z mod M).
  { assert (E' : (hi * M + lo) mod M = (z mod M + M * ((z / M) mod M)) mod M)
      by (rewrite E; reflexivity).
    rewrite Z.add_comm, Z_mod_plus_full, Z.mod_small in E' by lia.
    rewrite (Z.mul_comm M), Z_mod_plus_full, Z.mod_small in E' by lia.
    exact E'. }
  split; [exact El |].
  apply (Z.mul_reg_l _ _ M); lia.
Qed.

(** The words that [multiplyHiLo] returns: [lo] is the product as the
    ordinary multiplication of the type gives it, wrapped around, and [hi]
    is the product divided by [2 ^ W], rounded down. *)
Theorem multiplyHiLo_words ty r0 r1 :
  width ty = 8 \/ width ty = 16 \/ width ty = 32 \/ width ty = 64 ->
  in_range ty r0 -> in_range ty r1 ->
  snd (multiplyHiLo ty r0 r1) = mul ty r0 r1 /\
  fst (multiplyHiLo ty r0 r1) = (r0 * r1) / modulus ty.
Proof.
  intros Hw H0 H1. destruct (supported_width_even ty Hw) as [h [Hh E]].
  assert (Hw0 : 0 < width ty) by lia.
  pose proof (modulus_pos ty Hw0) as HM.
  pose proof (modulus_double_half ty Hw0) as HMT.
  pose proof (half_modulus_pos ty Hw0) as HT.
  apply (multiplyHiLo_patterns ty h Hh E r0 r1
           (fun p => snd p = mul ty r0 r1 /\
                     fst p = (r0 * r1) / modulus ty)); trivial.
  intros hi lo Hhi Hlo Heq. cbn [fst snd].
  destruct (two_digits (modulus ty) (pattern ty hi) (pattern ty lo) (r0 * r1))
    as [Elo Ehi]; trivial; try (apply pattern_range; trivial).
  split.
  - apply (pattern_inj ty); trivial; [apply wrap_range; trivial |].
    unfold mul. rewrite pattern_wrap by trivial. exact Elo.
  - assert (Hq : in_range ty (r0 * r1 / modulus ty)).
    { unfold in_range, min_val, max_val in *.
      set (M := modulus ty) in *. set (T := half_modulus ty) in *.
      destruct (is_signed ty).
      - assert (Hb : - (T * T) <= r0 * r1 <= T * T) by nia.
        assert (HTT : 0 < T * T) by nia.
        split.
        + apply Z.div_le_lower_bound; [lia |]. rewrite HMT. lia.
        + assert (r0 * r1 / M < T)
            by (apply Z.div_lt_upper_bound; [lia |]; rewrite HMT; lia).
          lia.
      - split; [apply Z.div_pos; nia |].
        assert (r0 * r1 / M < M) by (apply Z.div_lt_upper_bound; nia).
        lia. }
    apply (pattern_inj ty); trivial.
Qed.

Lemma multiplyHiLo_words_witness :
  snd (multiplyHiLo int16 (-300) 500) = mul int16 (-300) 500 /\
  fst (multiplyHiLo int16 (-300) 500) = (-300 * 500) / modulus int16.
Proof.
  apply (multiplyHiLo_words int16 (-300) 500).
  - right; left; reflexivity.
  - range_solve.
  - range_solve.
Defined.

(** ** addHiLo after addHiLo, and after multiplyHiLo *)

Lemma addHiLo_patterns ty hi lo r0 :
  0 < width ty ->
  in_range ty (fst (addHiLo ty hi lo r0)) /\
  in_range ty (snd (addHiLo ty hi lo r0)) /\
  pattern ty (fst (addHiLo ty hi lo r0)) * modulus ty
  + pattern ty (snd (addHiLo ty hi lo r0))
  = (pattern ty hi * modulus ty + pattern ty lo + pattern ty r0)
      mod (modulus ty * modulus ty).
Proof.
  intros Hw. pose proof (modulus_pos ty Hw) as Hm.
  pose proof (pattern_range ty hi Hw) as Hph.
  pose proof (pattern_range ty lo Hw) as Hpl.
  pose proof (pattern_range ty r0 Hw) as Hpr.
  unfold addHiLo. cbn [fst snd].
  split; [apply wrap_range, Hw |]. split; [apply wrap_range, Hw |].
  rewrite !pattern_wrap by trivial. unfold add.
  rewrite !wrap_unsigned, !Zmod_mod.
  rewrite !pattern_eq in *.
  set (ph := hi mod modulus ty) in *. set (pl := lo mod modulus ty) in *.
  set (pr := r0 mod modulus ty) in *.
  rewrite addHiLo_carry_flag by lia.
  set (c := (pl + pr) / modulus ty).
  rewrite (Z.add_comm pr).
  set (r := (pl + pr) mod modulus ty).
  assert (Hsplit : pl + pr = modulus ty * c + r) by (apply Z.div_mod; lia).
  assert (Hr : 0 <= r < modulus ty) by (apply Z.mod_pos_bound; lia).
  replace (ph * modulus ty + pl + pr) with ((ph + c) * modulus ty + r) by lia.
  rewrite Z.rem_mul_r by lia.
  rewrite Z.div_add_l by lia.
  rewrite (Z.div_small r) by lia.
  rewrite Z.add_0_r.
  rewrite (Z.add_comm ((ph + c) * modulus ty) r).
  rewrite Z_mod_plus_full, (Z.mod_small r) by lia.
  lia.
Qed.

(** A pair of values of the type is determined by the number its two bit
    patterns make up. *)
Lemma pair_of_patterns ty p q :
  0 < width ty ->
  in_range ty (fst p) -> in_range ty (snd p) ->
  in_range ty (fst q) -> in_range ty (snd q) ->
  pattern ty (fst p) * modulus ty + pattern ty (snd p)
  = pattern ty (fst q) * modulus ty + pattern ty (snd q) ->
  p = q.
Proof.
  intros Hw Hp1 Hp2 Hq1 Hq2 E. destruct p as [p1 p2], q as [q1 q2].
  cbn [fst snd] in *.
  pose proof (modulus_pos ty Hw) as Hm.
  pose proof (pattern_range ty p1 Hw). pose proof (pattern_range ty p2 Hw).
  pose proof (pattern_range ty q1 Hw). pose proof (pattern_range ty q2 Hw).
  assert (E2 : pattern ty p2 = pattern ty q2).
  { assert (E' : (pattern ty p1 * modulus ty + pattern ty p2) mod modulus ty
                 = (pattern ty q1 * modulus ty + pattern ty q2) mod modulus ty)
      by (rewrite E; reflexivity).
    rewrite !(Z.add_comm (_ * modulus ty)), !Z_mod_plus_full in E'.
    rewrite !Z.mod_small in E' by lia. exact E'. }
  assert (E1 : pattern ty p1 = pattern ty q1).
  { apply (Z.mul_reg_r _ _ (modulus ty)); lia. }
  f_equal; apply (pattern_inj ty); trivial.
Qed.

(** Two additions into a pair can be made in either order. *)
Theorem addHiLo_order ty hi lo a b :
  0 < width ty ->
  addHiLo ty (fst (addHiLo ty hi lo a)) (snd (addHiLo ty hi lo a)) b
  = addHiLo ty (fst (addHiLo ty hi lo b)) (snd (addHiLo ty hi lo b)) a.
Proof.
  intros Hw. pose proof (modulus_pos ty Hw) as Hm.
  assert (HMM : 0 < modulus ty * modulus ty) by nia.
  set (pa := addHiLo ty hi lo a). set (pb := addHiLo ty hi lo b).
  destruct (addHiLo_patterns ty hi lo a Hw) as (_ & _ & Ea). fold pa in Ea.
  destruct (addHiLo_patterns ty hi lo b Hw) as (_ & _ & Eb). fold pb in Eb.
  destruct (addHiLo_patterns ty (fst pa) (snd pa) b Hw) as (R1 & R2 & Eab).
  destruct (addHiLo_patterns ty (fst pb) (snd pb) a Hw) as (S1 & S2 & Eba).
  apply (pair_of_patterns ty); trivial.
  rewrite Eab, Eba, Ea, Eb.
  rewrite !Zplus_mod_idemp_l. f_equal. lia.
Qed.

Lemma addHiLo_order_witness :
  addHiLo int8 (fst (addHiLo int8 1 (-1) 100)) (snd (addHiLo int8 1 (-1) 100)) (-7)
  = addHiLo int8 (fst (addHiLo int8 1 (-1) (-7))) (snd (addHiLo int8 1 (-1) (-7))) 100.
Proof. apply (addHiLo_order int8 1 (-1) 100 (-7)). cbn. lia. Defined.

(** Multiply, then accumulate: [multiplyHiLo] followed by [addHiLo] of a
    third operand that is not negative yields, as a double-width value,
    exactly [a * b + c]; no carry is lost. *)
Theorem multiply_accumulate_exact ty a b c :
  width ty = 8 \/ width ty = 16 \/ width ty = 32 \/ width ty = 64 ->
  in_range ty a -> in_range ty b -> in_range ty c -> 0 <= c ->
  hilo ty
    (fst (addHiLo ty (fst (multiplyHiLo ty a b)) (snd (multiplyHiLo ty a b)) c))
    (snd (addHiLo ty (fst (multiplyHiLo ty a b)) (snd (multiplyHiLo ty a b)) c))
  = a * b + c.
Proof.
  intros Hw Ha Hb Hc Hc0. destruct (supported_width_even ty Hw) as [h [Hh E]].
  assert (Hw0 : 0 < width ty) by lia.
  pose proof (modulus_pos ty Hw0) as HM.
  pose proof (modulus_double_half ty Hw0) as HMT.
  pose proof (half_modulus_pos ty Hw0) as HT.
  apply (multiplyHiLo_patterns ty h Hh E a b
           (fun p => hilo ty (fst (addHiLo ty (fst p) (snd p) c))
                       (snd (addHiLo ty (fst p) (snd p) c)) = a * b + c));
    trivial.
  intros hi lo Hhi Hlo Heq. cbn [fst snd].
  destruct (addHiLo_patterns ty hi lo c Hw0) as (_ & _ & Es).
  unfold hilo. rewrite Es, Heq.
  assert (Hpc : pattern ty c = c).
  { rewrite pattern_eq. apply Z.mod_small.
    unfold in_range, min_val, max_val in Hc. destruct (is_signed ty); lia. }
  rewrite Hpc, Zplus_mod_idemp_l.
  assert (Hdw : 0 < width (double ty)) by (unfold double; cbn [width]; lia).
  assert (Hdm : modulus (double ty) = modulus ty * modulus ty).
  { unfold modulus, double. cbn [width].
    rewrite <- Z.pow_add_r by lia. f_equal. lia. }
  rewrite <- Hdm, wrap_mod_arg by exact Hdw.
  apply wrap_in_range; [exact Hdw |].
  pose proof (modulus_double_half (double ty) Hdw) as Hdh.
  unfold in_range, min_val, max_val in Ha, Hb, Hc |- *.
  change (is_signed (double ty)) with (is_signed ty).
  rewrite Hdm in *.
  set (M := modulus ty) in *. set (T := half_modulus ty) in *.
  set (D := half_modulus (double ty)) in *. clearbody D M T.
  destruct (is_signed ty); nia.
Qed.

Lemma multiply_accumulate_exact_witness :
  hilo uint32
    (fst (addHiLo uint32 (fst (multiplyHiLo uint32 4294967295 4294967295))
            (snd (multiplyHiLo uint32 4294967295 4294967295)) 4294967295))
    (snd (addHiLo uint32 (fst (multiplyHiLo uint32 4294967295 4294967295))
            (snd (multiplyHiLo uint32 4294967295 4294967295)) 4294967295))
  = 4294967295 * 4294967295 + 4294967295.
Proof.
  apply (multiply_accumulate_exact uint32 4294967295 4294967295 4294967295).
  - right; right; left; reflexivity.
  - range_solve.
  - range_solve.
  - range_solve.
  - lia.
Defined.

(** * Properties of string.cpp *)

(** ** strlcpy *)

Lemma strlcpy_loop_c_string n :
  forall s rest,
    ~ In NUL s ->
    strlcpy_loop n (s ++ NUL :: rest) = Some (firstn n s ++ [NUL]).
Proof.
  induction n as [| n IH]; intros s rest Hs; [reflexivity |].
  destruct s as [| c s]; cbn [strlcpy_loop app firstn].
  - rewrite Ascii.eqb_refl. reflexivity.
  - destruct (Ascii.eqb_spec c NUL) as [-> | _].
    + exfalso. apply Hs. left. reflexivity.
    + rewrite IH by (intros H; apply Hs; right; exact H). reflexivity.
Qed.

(** With a buffer length of at least 1, [strlcpy] of a C string stores the
    first [length - 1] characters of it, or all of it when it is shorter,
    and a NUL after them: never more than [length] characters, and the
    whole string when it fits. *)
Theorem strlcpy_truncates s rest len :
  ~ In NUL s -> 1 <= len < 2 ^ 32 ->
  strlcpy (s ++ NUL :: rest) len
  = Some (firstn (Z.to_nat (len - 1)) s ++ [NUL]) /\
  Z.of_nat (length (firstn (Z.to_nat (len - 1)) s ++ [NUL])) <= len /\
  (Z.of_nat (length s) < len ->
   strlcpy (s ++ NUL :: rest) len = Some (s ++ [NUL])).
Proof.
  intros Hs Hlen. unfold strlcpy.
  assert (E : sub uint32 len 1 = len - 1)
    by (unfold sub; apply wrap_uint32_small; lia).
  rewrite E, strlcpy_loop_c_string by exact Hs.
  split; [reflexivity |]. split.
  - rewrite length_app, length_firstn. cbn [length]. lia.
  - intros Hfit. rewrite firstn_all2 by lia. reflexivity.
Qed.

Lemma strlcpy_truncates_witness :
  strlcpy (["a"; "b"; "c"]%char ++ NUL :: ["x"]%char) 3
  = Some (firstn (Z.to_nat (3 - 1)) ["a"; "b"; "c"]%char ++ [NUL]) /\
  Z.of_nat (length (firstn (Z.to_nat (3 - 1)) ["a"; "b"; "c"]%char ++ [NUL]))
  <= 3 /\
  (Z.of_nat (length ["a"; "b"; "c"]%char) < 3 ->
   strlcpy (["a"; "b"; "c"]%char ++ NUL :: ["x"]%char) 3
   = Some (["a"; "b"; "c"]%char ++ [NUL])).
Proof.
  apply (strlcpy_truncates ["a"; "b"; "c"]%char ["x"]%char 3).
  - cbn. intros [H | [H | [H | H]]]; try discriminate H; exact H.
  - cbn. lia.
Defined.

(** With a buffer length of 0 the end pointer lies [2 ^ 32 - 1] characters
    ahead: [strlcpy] stores the whole string and its NUL, whatever the
    size of the destination. *)
Theorem strlcpy_length_zero s rest :
  ~ In NUL s -> Z.of_nat (length s) < 2 ^ 32 ->
  strlcpy (s ++ NUL :: rest) 0 = Some (s ++ [NUL]).
Proof.
  intros Hs Hlen. unfold strlcpy.
  change (sub uint32 0 1) with 4294967295.
  rewrite strlcpy_loop_c_string by exact Hs.
  rewrite firstn_all2 by lia. reflexivity.
Qed.

Lemma strlcpy_length_zero_witness :
  strlcpy (["a"; "b"; "c"]%char ++ NUL :: []) 0
  = Some (["a"; "b"; "c"]%char ++ [NUL]).
Proof.
  apply (strlcpy_length_zero ["a"; "b"; "c"]%char []).
  - cbn. intros [H | [H | [H | H]]]; try discriminate H; exact H.
  - cbn. lia.
Defined.

(** ** format *)

Lemma filter_all (A : Type) (f : A -> bool) (l : list A) :
  forallb f l = true -> filter f l = l.
Proof.
  induction l as [| a l IH]; cbn; [reflexivity |].
  intros H. apply andb_true_iff in H. destruct H as [Ha Hl].
  rewrite Ha, IH by exact Hl. reflexivity.
Qed.

Lemma filter_none_of_spaces l :
  forallb is_space l = true -> filter not_space l = [].
Proof.
  induction l as [| a l IH]; cbn; [reflexivity |].
  intros H. apply andb_true_iff in H. destruct H as [Ha Hl].
  unfold not_space at 1. rewrite Ha. cbn. apply IH, Hl.
Qed.

(** The characters that are not white space, in the result so far and in
    the word being read. *)
Lemma format_step_content prefix width st fi :
  forallb is_space prefix = true ->
  forallb not_space (word st) = true ->
  forallb not_space (word (format_step prefix width st fi)) = true /\
  filter not_space (result (format_step prefix width st fi))
  ++ word (format_step prefix width st fi)
  = (filter not_space (result st) ++ word st) ++ filter not_space [fi].
Proof.
  intros Hp Hw.
  assert (Hf : filter not_space [fi] = if is_space fi then [] else [fi])
    by (cbn; unfold not_space; destruct (is_space fi); reflexivity).
  rewrite Hf. unfold format_step. destruct (is_space fi) eqn:Hfi.
  - set (st1 := if add uint64 (currentIndex st) (Z.of_nat (length (word st)))
                     >? width
                then FormatState (word st) (result st ++ [newline] ++ prefix)
                       (wrap uint32 (Z.of_nat (length prefix)))
                else st).
    assert (H1 : word st1 = word st /\
                 filter not_space (result st1) = filter not_space (result st)).
    { unfold st1.
      destruct (add uint64 (currentIndex st) (Z.of_nat (length (word st)))
                >? width); cbn [word result]; [| split; reflexivity].
      split; [reflexivity |].
      rewrite !filter_app, (filter_none_of_spaces prefix Hp), !app_nil_r.
      reflexivity. }
    destruct H1 as [E1 E2]. rewrite app_nil_r.
    destruct (word st1) as [| c w] eqn:Ew.
    + rewrite Ew, E2, <- E1. split; [rewrite E1; exact Hw | reflexivity].
    + cbn [word result]. split; [reflexivity |].
      rewrite !filter_app, E2, app_nil_r.
      replace (filter not_space (c :: w)) with (c :: w)
        by (symmetry; apply filter_all; rewrite E1; exact Hw).
      change (filter not_space [space]) with (@nil ascii).
      rewrite app_nil_r, E1. reflexivity.
  - cbn [word result]. split.
    + rewrite forallb_app, Hw. cbn. unfold not_space. rewrite Hfi. reflexivity.
    + rewrite app_assoc. reflexivity.
Qed.

Lemma format_loop_content prefix width input :
  forallb is_space prefix = true ->
  forall st,
    forallb not_space (word st) = true ->
    let st' := fold_left (format_step prefix width) input st in
    forallb not_space (word st') = true /\
    filter not_space (result st') ++ word st'
    = (filter not_space (result st) ++ word st) ++ filter not_space input.
Proof.
  intros Hp. induction input as [| fi input IH]; intros st Hw.
  - cbn. rewrite app_nil_r. split; [exact Hw | reflexivity].
  - cbn [fold_left].
    destruct (format_step_content prefix width st fi Hp Hw) as [Hw1 E1].
    destruct (IH _ Hw1) as [Hw2 E2]. cbv zeta. split; [exact Hw2 |].
    rewrite E2, E1, <- app_assoc.
    change (fi :: input) with ([fi] ++ input).
    rewrite (filter_app _ [fi] input). reflexivity.
Qed.

(** With a [prefix] made of white space, [format] only moves white space:
    the other characters of the first prefix and of the input come out
    all, once and in order, however the lines are broken. *)
Theorem format_keeps_text input firstPrefix prefix width :
  forallb is_space prefix = true ->
  filter not_space (format input firstPrefix prefix width)
  = filter not_space firstPrefix ++ filter not_space input.
Proof.
  intros Hp. unfold format.
  set (st0 := FormatState [] firstPrefix
                (wrap uint32 (Z.of_nat (length firstPrefix)))).
  destruct (format_loop_content prefix width input Hp st0 eq_refl)
    as [Hw E]. cbv zeta in Hw, E.
  set (st := fold_left (format_step prefix width) input st0) in *.
  cbn [word result st0] in E. rewrite app_nil_r in E.
  rewrite <- E.
  assert (Hn : filter not_space [newline] = []) by reflexivity.
  destruct (add uint64 (currentIndex st) (Z.of_nat (length (word st)))
            >? width);
    rewrite !filter_app, !Hn, ?app_nil_r, (filter_all _ _ _ Hw);
    reflexivity.
Qed.

Lemma format_keeps_text_witness :
  filter not_space
    (format ["a"; " "; "b"; "c"; "010"; "d"]%char ["*"; " "]%char
       [" "; " "]%char 3)
  = filter not_space ["*"; " "]%char
    ++ filter not_space ["a"; " "; "b"; "c"; "010"; "d"]%char.
Proof.
  apply (format_keeps_text ["a"; " "; "b"; "c"; "010"; "d"]%char
           ["*"; " "]%char [" "; " "]%char 3).
  reflexivity.
Defined.

(** ** binaryToUint *)

Lemma shl_uint64_even mask : Z.even (shl uint64 mask 1) = true.
Proof.
  unfold shl, wrap. cbn [is_signed uint64].
  change (modulus uint64) with (2 ^ 64).
  rewrite <- Z.negb_odd, <- Z.bit0_odd, Z.mod_pow2_bits_low by lia.
  rewrite Z.shiftl_spec_low by lia. reflexivity.
Qed.

Lemma band_even_mask mask (b : bool) :
  Z.even mask = true -> band uint64 mask (if b then 1 else 0) = 0.
Proof.
  intros He. unfold band.
  replace (Z.land mask (if b then 1 else 0)) with 0; [reflexivity |].
  destruct b; [| rewrite Z.land_0_r; reflexivity].
  change 1 with (Z.ones 1). rewrite Z.land_ones by lia.
  change (2 ^ 1) with 2. rewrite Zmod_even, He. reflexivity.
Qed.

(** Once the mask is even, no digit changes the result any more. *)
Lemma binaryToUint_loop_even digits :
  forall mask result,
    Z.even mask = true -> in_range uint64 result ->
    binaryToUint_loop digits mask result
    = if forallb is_binary_digit digits then Some result else None.
Proof.
  induction digits as [| ci digits IH]; intros mask result He Hr.
  - reflexivity.
  - cbn [binaryToUint_loop forallb].
    change ((ci =? "0")%char || (ci =? "1")%char) with (is_binary_digit ci).
    destruct (is_binary_digit ci); [| reflexivity].
    cbv zeta. rewrite band_even_mask by exact He.
    unfold bor at 1. rewrite Z.lor_0_r.
    rewrite (wrap_in_range uint64 result) by (trivial; reflexivity).
    rewrite IH by (trivial; apply shl_uint64_even). reflexivity.
Qed.

(** The loop from the initial mask 1: the first digit is taken, and the
    next ones are only checked. *)
Lemma binaryToUint_loop_first c digits :
  binaryToUint_loop (c :: digits) 1 0
  = if forallb is_binary_digit (c :: digits)
    then Some (if (c =? "1")%char then 1 else 0)
    else None.
Proof.
  cbn [binaryToUint_loop forallb].
  change ((c =? "0")%char || (c =? "1")%char) with (is_binary_digit c).
  destruct (is_binary_digit c); [| reflexivity].
  cbv zeta.
  rewrite binaryToUint_loop_even.
  - destruct (forallb is_binary_digit digits); [| reflexivity].
    destruct (c =? "1")%char; reflexivity.
  - apply shl_uint64_even.
  - apply wrap_range. reflexivity.
Qed.

Lemma binaryToUint_prefixed c digits :
  binaryToUint ("0" :: "b" :: c :: digits)%char
  = binaryToUint_loop (c :: digits) 1 0.
Proof.
  unfold binaryToUint.
  replace (2 <? Z.of_nat (length ("0" :: "b" :: c :: digits)%char))
    with true by (symmetry; apply Z.ltb_lt; cbn [length]; lia).
  reflexivity.
Qed.

(** [binaryToUint] returns the value of the first digit after the [0b]
    alone, whatever the digits after it: the mask is shifted, but it is
    and-ed with the 0 or 1 of the comparison, not used to select it. *)
Theorem binaryToUint_first_digit c digits :
  binaryToUint ("0" :: "b" :: c :: digits)%char
  = if forallb is_binary_digit (c :: digits)
    then Some (if (c =? "1")%char then 1 else 0)
    else None.
Proof.
  rewrite binaryToUint_prefixed. apply binaryToUint_loop_first.
Qed.

(** [binaryToUint] passes its assertions exactly on the strings made of
    [0b] and at least one binary digit. *)
Theorem binaryToUint_defined string :
  binaryToUint string <> None <->
  exists digits,
    string = ("0" :: "b" :: digits)%char /\ digits <> [] /\
    forallb is_binary_digit digits = true.
Proof.
  split.
  - destruct string as [| c0 [| c1 [| c digits]]];
      try (intros H; exfalso; apply H; reflexivity).
    intros H.
    destruct (Ascii.eqb_spec c0 "0") as [-> | N0].
    2:{ exfalso. apply H. unfold binaryToUint.
        destruct (2 <? _); [| reflexivity]. cbv zeta.
        destruct (Ascii.eqb_spec c0 "0"); [contradiction | reflexivity]. }
    destruct (Ascii.eqb_spec c1 "b") as [-> | N1].
    2:{ exfalso. apply H. unfold binaryToUint.
        destruct (2 <? _); [| reflexivity]. cbv zeta.
        cbn [Ascii.eqb Bool.eqb andb].
        destruct (Ascii.eqb_spec c1 "b"); [contradiction | reflexivity]. }
    exists (c :: digits). split; [reflexivity |]. split; [discriminate |].
    rewrite binaryToUint_prefixed, binaryToUint_loop_first in H.
    destruct (forallb is_binary_digit (c :: digits));
      [reflexivity | contradiction].
  - intros (digits & -> & Hne & Hd).
    destruct digits as [| c digits]; [contradiction |].
    rewrite binaryToUint_prefixed, binaryToUint_loop_first, Hd. discriminate.
Qed.

(** ** toGraphVizParsableLabel *)

Lemma toGraphVizParsableLabel_loop string :
  forall result,
    fold_left
      (fun result fi =>
         if (fi =? "{")%char then result ++ ["["%char]
         else if (fi =? "}")%char then result ++ ["]"%char]
         else result ++ [fi])
      string result
    = result ++ map unbrace string.
Proof.
  induction string as [| fi string IH]; intros result.
  - cbn. rewrite app_nil_r. reflexivity.
  - cbn [fold_left map]. rewrite IH. unfold unbrace at 2.
    destruct (fi =? "{")%char; [| destruct (fi =? "}")%char];
      rewrite <- app_assoc; reflexivity.
Qed.

Lemma toGraphVizParsableLabel_map string :
  toGraphVizParsableLabel string = map unbrace string.
Proof. apply (toGraphVizParsableLabel_loop string []). Qed.

Lemma unbrace_not_brace c : is_brace (unbrace c) = false.
Proof.
  unfold unbrace.
  destruct (Ascii.eqb_spec c "{") as [-> | N1]; [reflexivity |].
  destruct (Ascii.eqb_spec c "}") as [-> | N2]; [reflexivity |].
  unfold is_brace.
  destruct (Ascii.eqb_spec c "{"); [contradiction |].
  destruct (Ascii.eqb_spec c "}"); [contradiction | reflexivity].
Qed.

Lemma unbrace_fixes c : is_brace c = false -> unbrace c = c.
Proof.
  unfold is_brace, unbrace. intros H.
  destruct (c =? "{")%char; [discriminate |].
  destruct (c =? "}")%char; [discriminate | reflexivity].
Qed.

(** The label returned has the length of the string and holds no brace:
    the characters other than braces stay where they are, and each brace
    has become the bracket of the same side. *)
Theorem toGraphVizParsableLabel_no_brace string :
  length (toGraphVizParsableLabel string) = length string /\
  existsb is_brace (toGraphVizParsableLabel string) = false /\
  forall i c,
    nth_error string i = Some c ->
    nth_error (toGraphVizParsableLabel string) i
    = Some (if (c =? "{")%char then "["%char
            else if (c =? "}")%char then "]"%char else c).
Proof.
  rewrite toGraphVizParsableLabel_map. split; [apply length_map |]. split.
  - induction string as [| c string IH]; [reflexivity |].
    cbn [map existsb]. rewrite unbrace_not_brace, IH. reflexivity.
  - intros i c H. rewrite nth_error_map, H. reflexivity.
Qed.

(** A label is left as it is by a second pass. *)
Theorem toGraphVizParsableLabel_idempotent string :
  toGraphVizParsableLabel (toGraphVizParsableLabel string)
  = toGraphVizParsableLabel string.
Proof.
  rewrite !toGraphVizParsableLabel_map, map_map. apply map_ext. intros c.
  apply unbrace_fixes, unbrace_not_brace.
Qed.

(** A string that holds no brace is returned as it is. *)
Theorem toGraphVizParsableLabel_brace_free string :
  existsb is_brace string = false ->
  toGraphVizParsableLabel string = string.
Proof.
  rewrite toGraphVizParsableLabel_map.
  induction string as [| c string IH]; [reflexivity |].
  cbn [existsb map]. intros H. apply orb_false_iff in H as [H1 H2].
  rewrite (unbrace_fixes c H1), (IH H2). reflexivity.
Qed.

Lemma toGraphVizParsableLabel_brace_free_witness :
  toGraphVizParsableLabel ["a"; "["; "b"; "]"]%char
  = ["a"; "["; "b"; "]"]%char.
Proof.
  apply (toGraphVizParsableLabel_brace_free ["a"; "["; "b"; "]"]%char).
  reflexivity.
Defined.

(** ** addLineNumbers *)

Lemma addLineNumbers_loop_plain t :
  forall result line,
    existsb is_newline t = false ->
    fold_left addLineNumbers_step t (result, line) = (result ++ t, line).
Proof.
  induction t as [| s t IH]; intros result line H.
  - cbn. rewrite app_nil_r. reflexivity.
  - cbn [existsb] in H. apply orb_false_iff in H as [H1 H2].
    cbn [fold_left addLineNumbers_step].
    unfold is_newline in H1. rewrite H1, IH by exact H2.
    rewrite <- app_assoc. reflexivity.
Qed.

Lemma newlines_cons s string :
  newlines (s :: string)
  = (if is_newline s then 1 else 0) + newlines string.
Proof.
  unfold newlines. cbn [filter]. destruct (is_newline s); cbn [length]; lia.
Qed.

Lemma newlines_nonneg string : 0 <= newlines string.
Proof. unfold newlines. lia. Qed.

(** The counter after the loop: one more for each line break. *)
Lemma addLineNumbers_loop_line string :
  forall result line,
    snd (fold_left addLineNumbers_step string (result, line))
    = if existsb is_newline string
      then wrap uint32 (line + newlines string)
      else line.
Proof.
  induction string as [| s string IH]; intros result line.
  - reflexivity.
  - cbn [fold_left addLineNumbers_step existsb].
    rewrite newlines_cons. fold (is_newline s).
    destruct (is_newline s); rewrite IH; cbn [orb]; [| reflexivity].
    destruct (existsb is_newline string) eqn:E.
    + unfold add, wrap. cbn [is_signed uint32].
      rewrite Zplus_mod_idemp_l. f_equal. lia.
    + replace (newlines string) with 0; [unfold add; f_equal; lia |].
      clear IH. induction string as [| c l IHl]; [reflexivity |].
      cbn [existsb] in E. apply orb_false_iff in E as [E1 E2].
      rewrite newlines_cons, E1. apply IHl, E2.
Qed.

Lemma addLineNumbers_state string :
  fold_left addLineNumbers_step string
    (decimal 1 ++ [space], add uint32 1 1)
  = (addLineNumbers string, wrap uint32 (newlines string + 2)).
Proof.
  pose proof (addLineNumbers_loop_line string (decimal 1 ++ [space])
                (add uint32 1 1)) as H.
  unfold addLineNumbers. cbv zeta.
  destruct (fold_left addLineNumbers_step string
              (decimal 1 ++ [space], add uint32 1 1)) as [out line].
  cbn [fst snd] in *. f_equal. rewrite H.
  change (add uint32 1 1) with 2.
  destruct (existsb is_newline string) eqn:E; [f_equal; lia |].
  replace (newlines string) with 0; [reflexivity |].
  clear H. induction string as [| c l IHl]; [reflexivity |].
  cbn [existsb] in E. apply orb_false_iff in E as [E1 E2].
  rewrite newlines_cons, E1. apply IHl, E2.
Qed.

(** A text of one line gets the number 1 and a space in front. *)
Theorem addLineNumbers_one_line t :
  existsb is_newline t = false ->
  addLineNumbers t = ("1" :: " " :: t)%char.
Proof.
  intros H. unfold addLineNumbers. cbv zeta.
  rewrite addLineNumbers_loop_plain by exact H. reflexivity.
Qed.

Lemma addLineNumbers_one_line_witness :
  addLineNumbers ["a"; " "; "b"]%char = ["1"; " "; "a"; " "; "b"]%char.
Proof.
  apply (addLineNumbers_one_line ["a"; " "; "b"]%char). reflexivity.
Defined.

(** The line that follows [n] line breaks is numbered [n + 1], modulo
    [2 ^ 32]: adding a line break and a line [t] to a text of [n - 1] line
    breaks adds the break, that number, a space and [t] to the result. *)
Theorem addLineNumbers_next_line string t :
  existsb is_newline t = false ->
  addLineNumbers (string ++ newline :: t)
  = addLineNumbers string ++ newline
    :: decimal ((newlines string + 2) mod 2 ^ 32) ++ space :: t.
Proof.
  intros H. unfold addLineNumbers at 1. cbv zeta.
  rewrite fold_left_app, addLineNumbers_state.
  cbn [fold_left addLineNumbers_step].
  replace (newline =? newline)%char with true by reflexivity.
  rewrite addLineNumbers_loop_plain by exact H. cbn [fst].
  rewrite <- !app_assoc. reflexivity.
Qed.

Lemma addLineNumbers_next_line_witness :
  addLineNumbers (["a"; "010"; "b"]%char ++ newline :: ["c"]%char)
  = addLineNumbers ["a"; "010"; "b"]%char ++ newline
    :: decimal ((newlines ["a"; "010"; "b"]%char + 2) mod 2 ^ 32)
       ++ space :: ["c"]%char.
Proof.
  apply (addLineNumbers_next_line ["a"; "010"; "b"]%char ["c"]%char).
  reflexivity.
Defined.

Lemma string_of_uint_no_newline d :
  filter is_newline
    (String.list_ascii_of_string (DecimalString.NilEmpty.string_of_uint d))
  = [].
Proof. induction d; cbn; try assumption; reflexivity. Qed.

Lemma decimal_no_newline n : filter is_newline (decimal n) = [].
Proof.
  unfold decimal, DecimalString.NilZero.string_of_uint.
  destruct (N.to_uint (Z.to_N n)) eqn:E; try reflexivity;
    rewrite <- E; apply string_of_uint_no_newline.
Qed.

Lemma newlines_app s t : newlines (s ++ t) = newlines s + newlines t.
Proof. unfold newlines. rewrite filter_app, length_app. lia. Qed.

Lemma addLineNumbers_loop_newlines string :
  forall result line,
    newlines (fst (fold_left addLineNumbers_step string (result, line)))
    = newlines result + newlines string.
Proof.
  induction string as [| s string IH]; intros result line.
  - cbn [fold_left fst]. change (newlines []) with 0. lia.
  - cbn [fold_left addLineNumbers_step]. rewrite newlines_cons.
    fold (is_newline s). destruct (is_newline s) eqn:E; rewrite IH.
    + rewrite !newlines_app. unfold newlines at 3 4.
      rewrite decimal_no_newline.
      change (newlines [newline]) with 1.
      change (Z.of_nat (length (filter is_newline [space]))) with 0.
      cbn [length]. lia.
    + rewrite newlines_app, newlines_cons, E. change (newlines []) with 0.
      lia.
Qed.

(** Numbering the lines adds no line break and removes none. *)
Theorem addLineNumbers_keeps_lines string :
  newlines (addLineNumbers string) = newlines string.
Proof.
  unfold addLineNumbers. cbv zeta. rewrite addLineNumbers_loop_newlines.
  rewrite newlines_app. unfold newlines at 1. rewrite decimal_no_newline.
  reflexivity.
Qed.
